(** * Shallow embedding of [src/main.py] (monthly playlist creator)

    Python [str] values are sequences of code points; they are modelled as
    [list Z].  ASCII literals are written with [u "..."], other code points
    (the em dash U+2014) are written as numbers. *)

From Stdlib Require Import ZArith QArith Qround List String Ascii Lia Lqa Bool.
Import ListNotations.
Open Scope Z_scope.
Open Scope list_scope.

(** ** Python strings *)

Definition pystr := list Z.

(** ASCII literal as a sequence of code points. *)
Fixpoint u (s : string) : pystr :=
  match s with
  | EmptyString => []
  | String c r => Z.of_nat (nat_of_ascii c) :: u r
  end.

(** [prefixb p s]: [s.startswith(p)]. *)
Fixpoint prefixb (p s : pystr) : bool :=
  match p, s with
  | [], _ => true
  | x :: p', y :: s' => (x =? y) && prefixb p' s'
  | _ :: _, [] => false
  end.

(** [find_sub needle hay]: index of the first occurrence ([str.find]). *)
Fixpoint find_sub (needle hay : pystr) : option nat :=
  if prefixb needle hay then Some 0%nat
  else match hay with
       | [] => None
       | _ :: h => option_map S (find_sub needle h)
       end.

(** [needle in hay]. *)
Definition py_in (needle hay : pystr) : bool :=
  match find_sub needle hay with Some _ => true | None => false end.

(** [s.split(sep, 1)] for a non-empty separator. *)
Definition py_split1 (sep s : pystr) : list pystr :=
  match find_sub sep s with
  | Some i => [firstn i s; skipn (i + List.length sep) s]
  | None => [s]
  end.

(** [l[0]] on the (never empty) result of a split. *)
Definition py_head (l : list pystr) : pystr := nth 0 l [].

(** [str.isspace] for one code point (Python's whitespace set). *)
Definition py_isspace (c : Z) : bool :=
  ((9 <=? c) && (c <=? 13)) || ((28 <=? c) && (c <=? 32)) ||
  (c =? 133) || (c =? 160) || (c =? 5760) ||
  ((8192 <=? c) && (c <=? 8202)) || (c =? 8232) || (c =? 8233) ||
  (c =? 8239) || (c =? 8287) || (c =? 12288).

Fixpoint lstrip (s : pystr) : pystr :=
  match s with
  | c :: r => if py_isspace c then lstrip r else s
  | [] => []
  end.

(** [s.strip()]. *)
Definition strip (s : pystr) : pystr := rev (lstrip (rev (lstrip s))).

(** ** Reddit posts and parsed songs *)

(** [post['data']['title']] and [post['data']['url']]. *)
Record post := mk_post { data_title : pystr; data_url : pystr }.

(** The dict built by [parse_song_titles]:
    [{'artist': ..., 'title': ..., 'query': ...}]. *)
Record song := mk_song { artist : pystr; title : pystr; query : pystr }.

Definition sep_dash : pystr := u " - ".

(** Body of the loop of [parse_song_titles] for one post (lines 40-50). *)
Definition parse_title (t : pystr) : option song :=
  if py_in sep_dash t then
    match py_split1 sep_dash t with
    | [artist0; rest] =>
        let song_title :=
          strip (py_head (py_split1 (u "(")
                   (py_head (py_split1 (u "[") rest)))) in
        Some (mk_song (strip artist0) song_title
                      (artist0 ++ u " " ++ song_title))
    | _ => None
    end
  else None.

(** [parse_song_titles posts] (lines 36-52), without its final print. *)
Fixpoint parse_song_titles (posts : list post) : list song :=
  match posts with
  | [] => []
  | p :: ps =>
      match parse_title (data_title p) with
      | Some s => s :: parse_song_titles ps
      | None => parse_song_titles ps
      end
  end.

(** ** Batches of [playlist_add_items] (lines 102-106) *)

(** [range(i, stop, step)]; the fuel [stop] bounds the number of steps. *)
Fixpoint py_range_aux (fuel i stop step : nat) : list nat :=
  match fuel with
  | O => []
  | S f => if Nat.ltb i stop then i :: py_range_aux f (i + step) stop step
           else []
  end.

Definition py_range (start stop step : nat) : list nat :=
  py_range_aux stop start stop step.

(** [l[i:j]] for [0 <= i <= j]. *)
Definition py_slice {A} (l : list A) (i j : nat) : list A :=
  firstn (j - i) (skipn i l).

(** The batches [track_ids[i:i+100]] for [i] in [range(0, len, 100)]. *)
Definition add_batches {A} (track_ids : list A) : list (list A) :=
  map (fun i => py_slice track_ids i (i + 100)) (py_range 0 (List.length track_ids) 100).

(** ** Python floats

    The resize arithmetic of the cover pipeline is done on Python floats
    (IEEE binary64, round to nearest, ties to even).  Only nonnegative
    values in the normal range occur there (image sizes and ratios), and a
    float is represented by its exact rational value. *)
Module PyFloat.

(** [n / d] rounded to the nearest integer, ties to even
    ([n >= 0], [d > 0]). *)
Definition round_half_even (n d : Z) : Z :=
  let q := n / d in
  let r := n mod d in
  if (d <? 2 * r) || ((2 * r =? d) && Z.odd q) then q + 1 else q.

(** The exponent [k] with [2^k <= n/d < 2^(k+1)] ([n, d > 0]). *)
Definition ilog2_Q (n d : Z) : Z :=
  let a := Z.log2 n - Z.log2 d in
  if (if 0 <=? a then d * 2 ^ a <=? n else d <=? n * 2 ^ (- a))
  then a else a - 1.

(** Rounding of a nonnegative rational to a 53-bit significand. *)
Definition round (x : Q) : Q :=
  let n := Qnum x in
  let d := Zpos (Qden x) in
  if n <=? 0 then 0 else
  let e := ilog2_Q n d - 52 in
  if 0 <=? e then inject_Z (round_half_even n (d * 2 ^ e) * 2 ^ e)
  else round_half_even (n * 2 ^ (- e)) d # Z.to_pos (2 ^ (- e)).

(** [float(z)] *)
Definition of_int (z : Z) : Q := round (inject_Z z).

(** [a / b] on ints (CPython rounds the exact quotient once). *)
Definition int_truediv (a b : Z) : Q := round (inject_Z a / inject_Z b).

(** [a * b] on floats. *)
Definition mul (a b : Q) : Q := round (a * b).

(** [int(x)] for [x >= 0] (truncation). *)
Definition to_int (x : Q) : Z := Qnum x / Zpos (Qden x).

End PyFloat.

(** [int(n * (num / den))] with [n] an int and [num / den] a true division. *)
Definition int_scale (n num den : Z) : Z :=
  PyFloat.to_int (PyFloat.mul (PyFloat.of_int n) (PyFloat.int_truediv num den)).

(** [int(n * 0.75)]. *)
Definition int_three_quarters (n : Z) : Z :=
  PyFloat.to_int (PyFloat.mul (PyFloat.of_int n) (3 # 4)).

(** The relative error bound of one rounding, [2^-53]. *)
Definition eps : Q := 1 # 9007199254740992.

(** ** Images (Pillow) *)

Inductive font :=
| TrueType (path : pystr) (size : Z)   (** [ImageFont.truetype(path, size)] *)
| DefaultFont.                        (** [ImageFont.load_default()] *)

Inductive resample := NEAREST | BILINEAR | BICUBIC | LANCZOS.

(** One [draw.text(xy, text, font=..., fill=...)] call. *)
Record draw_text := mk_draw_text
  { dt_xy : Z * Z; dt_text : pystr; dt_font : font; dt_fill : list Z }.

Inductive img_op :=
| OpResize (w h : Z) (filter : resample)
| OpText (d : draw_text).

(** An image: the decoded source, its current size and the operations applied
    to it since decoding, oldest first. *)
Record image := mk_image
  { img_src : Z; width : Z; height : Z; img_ops : list img_op }.

(** [image.resize((w, h), filter)] *)
Definition img_resize (im : image) (w h : Z) (f : resample) : image :=
  mk_image (img_src im) w h (img_ops im ++ [OpResize w h f]).

Definition img_draw (im : image) (d : draw_text) : image :=
  mk_image (img_src im) (width im) (height im) (img_ops im ++ [OpText d]).

Definition bytes := list Byte.byte.

(** ** Effects: exceptions, external calls and console output *)

Inductive exn :=
| ExnRequests     (** a [requests] exception (connection error, ...); an [IOError] *)
| ExnImage        (** [Image.open] cannot identify the data ([UnidentifiedImageError], an [OSError]) *)
| ExnOS           (** another [OSError]: truncated image data, a mode JPEG cannot store, a missing font file *)
| ExnValue        (** [ValueError] *)
| ExnType         (** [TypeError] *)
| ExnAttribute    (** [AttributeError] *)
| ExnOther        (** any other exception (an [ImportError], ...) *)
| ExnSpotify.     (** a [spotipy] exception *)

(** [except IOError] ([OSError]) catches [requests]' exceptions,
    [UnidentifiedImageError] and the other [OSError]s. *)
Definition is_oserror (e : exn) : bool :=
  match e with ExnRequests | ExnImage | ExnOS => true | _ => false end.

Definition is_typeerror (e : exn) : bool := match e with ExnType => true | _ => false end.

Definition is_attributeerror (e : exn) : bool :=
  match e with ExnAttribute => true | _ => false end.

(** The [print] calls, with the values they format. *)
Inductive msg :=
| MsgFetching (subreddit : pystr) (limit : Z)
| MsgRedditError (status : Z)
| MsgSongs (songs : list song)
| MsgCreatingFor (user : pystr)
| MsgSearching (q : pystr)
| MsgFound (artist name : pystr)
| MsgNotFound (artist title : pystr)
| MsgAdded (n : nat)
| MsgCouldNotFind (n : nat)
| MsgNotFoundItem (artist title : pystr)
| MsgUsingImage (url : pystr)
| MsgDownloadError (status : Z)
| MsgImageDims (w h : Z)
| MsgResized (w h : Z)
| MsgFont (f : font)
| MsgTextDims (used_textbbox : bool)
| MsgImageSize (nbytes : Z)          (** printed in KB *)
| MsgCompressedSize (nbytes : Z)     (** printed in KB *)
| MsgUploadOk
| MsgUploadError (e : exn)
| MsgStarting
| MsgNoPosts
| MsgNoSongs
| MsgFoundSongs (n : nat)
| MsgComplete
| MsgEnvError.

Inductive event :=
| EvPrint (m : msg)
| EvCreatePlaylist (user name : pystr) (public : bool) (description : pystr)
| EvSearch (q : pystr)
| EvAddItems (playlist_id : pystr) (batch : list pystr)
| EvUploadCover (playlist_id : pystr) (image_data : bytes).

Inductive result (A : Type) := Ok (a : A) | Err (e : exn).
Arguments Ok {A} a.
Arguments Err {A} e.

(** Computations that append to the trace of events and may raise. *)
Definition M (A : Type) := list event -> result A * list event.

Definition ret {A} (a : A) : M A := fun tr => (Ok a, tr).

Definition bind {A B} (m : M A) (k : A -> M B) : M B :=
  fun tr => match m tr with
            | (Ok a, tr') => k a tr'
            | (Err e, tr') => (Err e, tr')
            end.

Definition raise {A} (e : exn) : M A := fun tr => (Err e, tr).

Definition emit (e : event) : M unit := fun tr => (Ok tt, tr ++ [e]).

Definition print (m : msg) : M unit := emit (EvPrint m).

(** [try: m  except Exception as e: h(e)] *)
Definition try_except {A} (m : M A) (h : exn -> M A) : M A :=
  fun tr => match m tr with
            | (Err e, tr') => h e tr'
            | r => r
            end.

(** [try: m  except C: h], where [c e] tells whether [e] is an instance of [C]. *)
Definition try_catch {A} (c : exn -> bool) (m : M A) (h : M A) : M A :=
  fun tr => match m tr with
            | (Err e, tr') => if c e then h tr' else (Err e, tr')
            | r => r
            end.

Declare Scope monad_scope.
Notation "x <- c1 ;; c2" := (bind c1 (fun x => c2))
  (at level 61, c1 at next level, right associativity) : monad_scope.
Notation "' pat <- c1 ;; c2" := (bind c1 (fun x => match x with pat => c2 end))
  (at level 61, pat pattern, c1 at next level, right associativity) : monad_scope.
Notation "c1 ;; c2" := (bind c1 (fun _ : unit => c2))
  (at level 61, right associativity) : monad_scope.
Open Scope monad_scope.

Fixpoint for_each {A} (l : list A) (body : A -> M unit) : M unit :=
  match l with
  | [] => ret tt
  | x :: r => body x;; for_each r body
  end.

(** ** The outside world: Reddit, Spotify, the image host, fonts, Pillow *)

Inductive response (A : Type) :=
| Response (status_code : Z) (body : A)
| ConnectionError.
Arguments Response {A} status_code body.
Arguments ConnectionError {A}.

(** A search hit: [track['id']], [track['artists'][0]['name']], [track['name']]. *)
Record track := mk_track { track_id : pystr; track_artist : pystr; track_name : pystr }.

Record world := mk_world {
  w_today : Z * Z;                              (** (year, month) of [date.today()] *)
  w_reddit : pystr -> Z -> response (list post); (** top.json?t=month, by subreddit and limit *)
  w_user_id : pystr;                            (** [sp.current_user()['id']] *)
  w_playlist_id : pystr;                        (** id of the created playlist *)
  w_search : pystr -> list track;               (** items of [sp.search(q, type='track', limit=1)] *)
  w_download : pystr -> response bytes;         (** [requests.get(image_url)] *)
  w_open : bytes -> option image;               (** [Image.open] (reads the header); [None]: it raises *)
  w_load : Z -> option exn;                     (** decoding the pixel data of an opened source
                                                    ([im.load()]); [Some e]: it raises [e] *)
  w_resample : image -> option exn;             (** [im.resize] to a new positive size;
                                                    [Some e]: Pillow cannot resample this image *)
  w_truetype : pystr -> Z -> option exn;        (** [ImageFont.truetype(path, size)]; [Some e]: it raises *)
  w_textbbox : font -> pystr -> result (Z * Z * Z * Z);
                                                (** [draw.textbbox((0, 0), text, font=font)];
                                                    [Err ExnAttribute] on a Pillow without it *)
  w_textsize : font -> pystr -> result (Z * Z); (** [draw.textsize(text, font=font)] *)
  w_text : image -> draw_text -> option exn;    (** [draw.text(...)] on the image; [Some e]: it raises
                                                    before drawing (a single-band image refuses a
                                                    tuple fill with [TypeError]) *)
  w_jpeg : image -> Z -> result bytes;          (** [image.save(..., format='JPEG', quality=q)];
                                                    [Err] e.g. for a mode JPEG cannot store *)
  w_upload_ok : bytes -> bool                   (** [playlist_upload_cover_image] succeeds *)
}.

(** [str(n)] for [n >= 0]. *)
Fixpoint digits_aux (fuel : nat) (n : Z) (acc : pystr) : pystr :=
  match fuel with
  | O => acc
  | S f => let acc' := (48 + n mod 10) :: acc in
           if n <? 10 then acc' else digits_aux f (n / 10) acc'
  end.

Definition py_str_Z (n : Z) : pystr := digits_aux (S (Z.to_nat (Z.log2 n))) n [].

(** [date.today().strftime("%B")] (C locale). *)
Definition month_name (m : Z) : pystr :=
  match m with
  | 1 => u "January" | 2 => u "February" | 3 => u "March" | 4 => u "April"
  | 5 => u "May" | 6 => u "June" | 7 => u "July" | 8 => u "August"
  | 9 => u "September" | 10 => u "October" | 11 => u "November"
  | 12 => u "December" | _ => []
  end.

(** ** The functions of [main.py] *)

Section Program.

Variable w : world.

(** [get_reddit_posts(subreddit, time_filter='month', limit)] (lines 22-34). *)
Definition get_reddit_posts (subreddit : pystr) (limit : Z) : M (list post) :=
  print (MsgFetching subreddit limit);;
  match w_reddit w subreddit limit with
  | ConnectionError => raise ExnRequests
  | Response status_code children =>
      if status_code =? 200 then ret children
      else print (MsgRedditError status_code);; ret []
  end.

(** The search loop of [create_spotify_playlist] (lines 87-99), with the
    accumulated [track_ids] and [not_found]. *)
Fixpoint search_songs (songs : list song) (track_ids : list pystr)
    (not_found : list song) : M (list pystr * list song) :=
  match songs with
  | [] => ret (track_ids, not_found)
  | s :: rest =>
      print (MsgSearching (query s));;
      emit (EvSearch (query s));;
      match w_search w (query s) with
      | t :: _ =>
          print (MsgFound (track_artist t) (track_name t));;
          search_songs rest (track_ids ++ [track_id t]) not_found
      | [] =>
          print (MsgNotFound (artist s) (title s));;
          search_songs rest track_ids (not_found ++ [s])
      end
  end.

(** Lines 102-106. *)
Definition insert_batches (playlist_id : pystr) (track_ids : list pystr) : M unit :=
  match track_ids with
  | [] => ret tt
  | _ =>
      for_each (py_range 0 (List.length track_ids) 100) (fun i =>
        let batch := py_slice track_ids i (i + 100) in
        emit (EvAddItems playlist_id batch);;
        print (MsgAdded (List.length batch)))
  end.

(** [create_spotify_playlist(songs)] (lines 62-113); it returns the id of the
    playlist ([playlist['id']]). *)
Definition create_spotify_playlist (songs : list song) : M pystr :=
  let user_id := w_user_id w in
  print (MsgCreatingFor user_id);;
  let '(current_year, current_month) := w_today w in
  let stamp := py_str_Z current_month ++ u "/" ++ py_str_Z current_year in
  let playlist_name := u "r/listentothis " ++ stamp in
  emit (EvCreatePlaylist user_id playlist_name true
          (u "Top tracks from r/listentothis for " ++ stamp ++ u "."));;
  let playlist := w_playlist_id w in
  '(track_ids, not_found) <- search_songs songs [] [];;
  insert_batches playlist track_ids;;
  match not_found with
  | [] => ret playlist
  | _ =>
      print (MsgCouldNotFind (List.length not_found));;
      for_each not_found (fun s => print (MsgNotFoundItem (artist s) (title s)));;
      ret playlist
  end.

(** Lines 135-141. *)
Definition max_size : Z := 1500.

Definition resize_dims (w0 h0 : Z) : Z * Z :=
  let m := Z.max w0 h0 in
  (int_scale w0 max_size m, int_scale h0 max_size m).

(** [im.load()]: the pixel data of an opened source is decoded the first
    time it is needed; an image made by Pillow operations is in memory. *)
Definition pil_load (im : image) : M unit :=
  match img_ops im with
  | [] => match w_load w (img_src im) with Some e => raise e | None => ret tt end
  | _ => ret tt
  end.

(** [im.resize((nw, nh), f)] (Pillow): it loads the image; the same size
    gives a copy; a side below 1 raises
    [ValueError("height and width must be > 0")]. *)
Definition pil_resize (im : image) (nw nh : Z) (f : resample) : M image :=
  pil_load im;;
  if (nw =? width im) && (nh =? height im) then ret im
  else if (nw <? 1) || (nh <? 1) then raise ExnValue
  else match w_resample w im with
       | Some e => raise e
       | None => ret (img_resize im nw nh f)
       end.

Definition resize_if_needed (im : image) : M image :=
  if max_size <? Z.max (width im) (height im) then
    let '(nw, nh) := resize_dims (width im) (height im) in
    im' <- pil_resize im nw nh LANCZOS;;
    print (MsgResized nw nh);;
    ret im'
  else ret im.

(** Font choice (lines 150-160). *)
Definition dejavu_path : pystr := u "/usr/share/fonts/truetype/dejavu/DejaVuSans-Bold.ttf".
Definition arial_path : pystr := u "Arial.ttf".

(** [ImageFont.truetype(path, size)] *)
Definition truetype (path : pystr) (size : Z) : M font :=
  match w_truetype w path size with
  | Some e => raise e
  | None => ret (TrueType path size)
  end.

Definition choose_font : M font :=
  try_catch is_oserror
    (f <- truetype dejavu_path 60;; print (MsgFont f);; ret f)
    (try_catch is_oserror
       (f <- truetype arial_path 60;; print (MsgFont f);; ret f)
       (print (MsgFont DefaultFont);; ret DefaultFont)).

(** Text size (lines 163-172): [except AttributeError] falls back to
    [draw.textsize]. *)
Definition text_dims (f : font) (text : pystr) : M (Z * Z) :=
  try_catch is_attributeerror
    (match w_textbbox w f text with
     | Ok (x0, y0, x1, y1) => print (MsgTextDims true);; ret (x1 - x0, y1 - y0)
     | Err e => raise e
     end)
    (match w_textsize w f text with
     | Ok dims => print (MsgTextDims false);; ret dims
     | Err e => raise e
     end).

(** Successive [draw.text] calls on the image being drawn on: they stop at
    the first call that raises, with what was drawn so far kept. *)
Fixpoint draw_texts (im : image) (ds : list draw_text) : image * option exn :=
  match ds with
  | [] => (im, None)
  | d :: ds' =>
      match w_text w im d with
      | Some e => (im, Some e)
      | None => draw_texts (img_draw im d) ds'
      end
  end.

(** Lines 143-188: [ImageDraw.Draw(image)] loads the image; the two
    [draw.text] calls with alpha fills are made again with 3-tuple fills
    when one of them raises [TypeError]; the retry is not guarded. *)
Definition draw_month (im : image) : M image :=
  pil_load im;;
  let current_month := month_name (snd (w_today w)) in
  f <- choose_font;;
  '(text_width, text_height) <- text_dims f current_month;;
  let position := (width im - text_width - 20, height im - text_height - 20) in
  let shadow_offset := 2 in
  let shadow_position := (fst position + shadow_offset, snd position + shadow_offset) in
  match draw_texts im [mk_draw_text shadow_position current_month f [0; 0; 0; 180];
                       mk_draw_text position current_month f [255; 255; 255; 230]] with
  | (im1, None) => ret im1
  | (im1, Some e) =>
      if is_typeerror e then
        match draw_texts im1 [mk_draw_text shadow_position current_month f [0; 0; 0];
                              mk_draw_text position current_month f [255; 255; 255]] with
        | (im2, None) => ret im2
        | (_, Some e') => raise e'
        end
      else raise e
  end.

(** [len(img_byte_arr.getvalue()) / 1024 > 200] *)
Definition over_budget (b : bytes) : bool := 204800 <? Z.of_nat (List.length b).

(** [image.save(img_byte_arr, format='JPEG', quality=quality)] *)
Definition save_jpeg (im : image) (quality : Z) : M bytes :=
  match w_jpeg w im quality with
  | Ok b => ret b
  | Err e => raise e
  end.

(** Lines 190-217; it returns the image that was last encoded and its
    buffer. *)
Definition save_cover (im : image) : M (image * bytes) :=
  img_byte_arr <- save_jpeg im 85;;
  print (MsgImageSize (Z.of_nat (List.length img_byte_arr)));;
  if over_budget img_byte_arr then
    img_byte_arr <- save_jpeg im 70;;
    '(im', buf) <-
      (if over_budget img_byte_arr then
         im' <- pil_resize im (int_three_quarters (width im))
                  (int_three_quarters (height im)) LANCZOS;;
         buf <- save_jpeg im' 70;;
         ret (im', buf)
       else ret (im, img_byte_arr));;
    print (MsgCompressedSize (Z.of_nat (List.length buf)));;
    ret (im', buf)
  else ret (im, img_byte_arr).

(** Processing of the decoded image (lines 133-217). *)
Definition process_cover (im : image) : M (image * bytes) :=
  print (MsgImageDims (width im) (height im));;
  im <- resize_if_needed im;;
  im <- draw_month im;;
  save_cover im.

(** [get_and_modify_cover_image()] (lines 115-219). *)
Definition get_and_modify_cover_image : M (option bytes) :=
  posts <- get_reddit_posts (u "earthporn") 1;;
  match posts with
  | [] => ret None
  | p :: _ =>
      let image_url := data_url p in
      print (MsgUsingImage image_url);;
      match w_download w image_url with
      | ConnectionError => raise ExnRequests
      | Response status_code content =>
          if negb (status_code =? 200) then
            print (MsgDownloadError status_code);; ret None
          else
            match w_open w content with
            | None => raise ExnImage
            | Some im => '(_, buf) <- process_cover im;; ret (Some buf)
            end
      end
  end.

(** [set_playlist_cover(playlist_id, image_data)] (lines 221-233);
    [get_spotify_client()] only builds the client object. *)
Definition set_playlist_cover (playlist_id : pystr) (image_data : bytes) : M bool :=
  try_except
    (emit (EvUploadCover playlist_id image_data);;
     if w_upload_ok w image_data then print MsgUploadOk;; ret true
     else raise ExnSpotify)
    (fun e => print (MsgUploadError e);; ret false).

(** Lines 256-263 ([playlist] is a non-empty dict, hence true). *)
Definition cover_and_finish (playlist : pystr) : M unit :=
  image_data <- get_and_modify_cover_image;;
  match image_data with
  | Some b => _ <- set_playlist_cover playlist b;; ret tt
  | None => ret tt
  end;;
  print MsgComplete.

(** [create_monthly_playlist()] (lines 235-263). *)
Definition create_monthly_playlist : M unit :=
  print MsgStarting;;
  posts <- get_reddit_posts (u "listentothis") 20;;
  match posts with
  | [] => print MsgNoPosts
  | _ =>
      let songs := parse_song_titles posts in
      print (MsgSongs songs);;
      match songs with
      | [] => print MsgNoSongs
      | _ =>
          print (MsgFoundSongs (List.length songs));;
          playlist <- create_spotify_playlist songs;;
          cover_and_finish playlist
      end
  end.

(** [os.getenv(name)] at import time, after [load_dotenv()]. *)
Definition environ := pystr -> option pystr.

(** Truth value of a value read with [os.getenv]: [None] and [''] are false. *)
Definition py_truthy (v : option pystr) : bool :=
  match v with
  | Some (_ :: _) => true
  | _ => false
  end.

(** The [__main__] block (lines 265-269). *)
Definition main (env : environ) : M unit :=
  if forallb py_truthy [env (u "SPOTIPY_CLIENT_ID"); env (u "SPOTIPY_CLIENT_SECRET");
                        env (u "SPOTIPY_REDIRECT_URI")]
  then create_monthly_playlist
  else print MsgEnvError.

End Program.

(** ** Observations on runs

    Views of a trace and of the search service used to state what a run
    does. *)

(** The ids of the first search hits of [songs], in order. *)
Definition hit_ids (w : world) (songs : list song) : list pystr :=
  flat_map (fun s => match w_search w (query s) with
                     | t :: _ => [track_id t]
                     | [] => []
                     end) songs.

(** The songs with no search hit, in order. *)
Definition missed (w : world) (songs : list song) : list song :=
  filter (fun s => match w_search w (query s) with [] => true | _ => false end) songs.

(** The queries sent to [sp.search], in order. *)
Definition searched (tr : list event) : list pystr :=
  flat_map (fun e => match e with EvSearch q => [q] | _ => [] end) tr.

(** The track ids sent to [playlist_add_items], in order. *)
Definition added_ids (tr : list event) : list pystr :=
  flat_map (fun e => match e with EvAddItems _ b => b | _ => [] end) tr.

(** The [user_playlist_create] calls. *)
Definition created (tr : list event) : list event :=
  filter (fun e => match e with EvCreatePlaylist _ _ _ _ => true | _ => false end) tr.

(** The [playlist_upload_cover_image] calls. *)
Definition uploads (tr : list event) : list event :=
  filter (fun e => match e with EvUploadCover _ _ => true | _ => false end) tr.

Definition is_print (e : event) : bool :=
  match e with EvPrint _ => true | _ => false end.

(** Every write call ([playlist_add_items], [playlist_upload_cover_image])
    targets [pid], and no playlist is created. *)
Definition writes_to (pid : pystr) (e : event) : Prop :=
  match e with
  | EvCreatePlaylist _ _ _ _ => False
  | EvAddItems p _ | EvUploadCover p _ => p = pid
  | _ => True
  end.

(** The events of one pass of the search loop (lines 88-99). *)
Definition search_events (w : world) (s : song) : list event :=
  [EvPrint (MsgSearching (query s)); EvSearch (query s)] ++
  match w_search w (query s) with
  | t :: _ => [EvPrint (MsgFound (track_artist t) (track_name t))]
  | [] => [EvPrint (MsgNotFound (artist s) (title s))]
  end.

(** [m] only appends events satisfying [P] to the trace, whether it
    returns or raises. *)
Definition emits (P : event -> Prop) {A} (m : M A) : Prop :=
  forall tr, exists r suf, m tr = (r, tr ++ suf) /\ Forall P suf.

Definition printing (e : event) : Prop := is_print e = true.

(** A world where Reddit answers 503 to every request. *)
Definition reddit_down (w : world) : world :=
  mk_world (w_today w) (fun _ _ => Response 503 []) (w_user_id w) (w_playlist_id w)
    (w_search w) (w_download w) (w_open w) (w_load w) (w_resample w) (w_truetype w)
    (w_textbbox w) (w_textsize w) (w_text w) (w_jpeg w) (w_upload_ok w).

(** Decimal value of a string of digits. *)
Fixpoint dec_value_aux (acc : Z) (s : pystr) : Z :=
  match s with
  | [] => acc
  | c :: r => dec_value_aux (10 * acc + (c - 48)) r
  end.

Definition dec_value (s : pystr) : Z := dec_value_aux 0 s.

(** ** Readings of the spec, compared with the code below *)

(** The spec's truncation: the prefix before the first ['['] or ['(']. *)
Fixpoint cut_at_bracket (s : pystr) : pystr :=
  match s with
  | [] => []
  | c :: r => if (c =? 91) || (c =? 40) then [] else c :: cut_at_bracket r
  end.

(** Whether the cover step of a run raises: the Reddit request for the
    cover post fails to connect, or the image download fails to connect,
    or the downloaded data cannot be opened, or processing the opened image
    (decoding, resizing, drawing, encoding) raises. *)
Definition cover_raises (w : world) : bool :=
  match w_reddit w (u "earthporn") 1 with
  | ConnectionError => true
  | Response code posts =>
      if code =? 200 then
        match posts with
        | [] => false
        | p :: _ =>
            match w_download w (data_url p) with
            | ConnectionError => true
            | Response c content =>
                if c =? 200 then
                  match w_open w content with
                  | None => true
                  | Some im =>
                      match fst (process_cover w im []) with Err _ => true | Ok _ => false end
                  end
                else false
            end
        end
      else false
  end.

(** ** Sample inputs *)

Definition emdash : Z := 8212.

Definition feed3 : list post :=
  [mk_post (u "Foo - Bar [Rock] (2021)") [];
   mk_post (u "NoSeparatorHere") [];
   mk_post (u "Baz " ++ [emdash] ++ u " Qux") []].

Definition pystr_eqb (a b : pystr) : bool :=
  if list_eq_dec Z.eq_dec a b then true else false.

(** A world with the feed above, one search hit for "Foo Bar", a cover post
    whose data opens as [opened], the JPEG encoder [jpeg], and no other Pillow
    operation raising. *)
Definition cover_src : image := mk_image 1 1000 500 [].

Definition sample_world (opened : option image) (jpeg : image -> Z -> bytes) : world :=
  mk_world (2026, 10)
    (fun sub _ =>
       if pystr_eqb sub (u "listentothis") then Response 200 feed3
       else Response 200 [mk_post (u "Mountains") (u "https://i.redd.it/a.jpg")])
    (u "user") (u "pl1")
    (fun q => if pystr_eqb q (u "Foo Bar") then [mk_track (u "t1") (u "Foo") (u "Bar")] else [])
    (fun _ => Response 200 [Byte.x00])
    (fun _ => opened)
    (fun _ => None) (fun _ => None) (fun _ _ => None)
    (fun _ _ => Ok (0, 0, 180, 44)) (fun _ _ => Ok (180, 44))
    (fun _ _ => None)
    (fun im q => Ok (jpeg im q))
    (fun _ => true).

Definition small_jpeg (_ : image) (_ : Z) : bytes := [Byte.x01].

(** Every encoding is one byte over 200 KiB. *)
Definition large_jpeg (_ : image) (_ : Z) : bytes := repeat Byte.x00 (Z.to_nat 204801).

(** * Properties *)

(** ** Title parser *)

Fixpoint take_until (c : Z) (s : pystr) : pystr :=
  match s with
  | [] => []
  | x :: r => if c =? x then [] else x :: take_until c r
  end.

Lemma find_sub_single (c x : Z) (s : pystr) :
  find_sub [c] (x :: s) = if c =? x then Some 0%nat else option_map S (find_sub [c] s).
Proof. simpl. now rewrite andb_true_r. Qed.

Lemma head_split1_char (c : Z) (s : pystr) :
  py_head (py_split1 [c] s) = take_until c s.
Proof.
  induction s as [| x s IH]; [reflexivity |].
  unfold py_split1, py_head in *. rewrite find_sub_single. simpl take_until.
  destruct (c =? x); [reflexivity |].
  destruct (find_sub [c] s); simpl in *; f_equal; exact IH.
Qed.

Lemma take_until_brackets (s : pystr) :
  take_until 40 (take_until 91 s) = cut_at_bracket s.
Proof.
  induction s as [| x s IH]; [reflexivity |]. cbn [take_until cut_at_bracket].
  rewrite (Z.eqb_sym 91 x).
  destruct (x =? 91); [reflexivity |]. cbn [take_until orb].
  rewrite (Z.eqb_sym 40 x).
  destruct (x =? 40); [reflexivity | now rewrite IH].
Qed.

Lemma parse_title_found (t : pystr) (i : nat) :
  find_sub sep_dash t = Some i ->
  parse_title t =
    Some (mk_song (strip (firstn i t))
            (strip (cut_at_bracket (skipn (i + 3) t)))
            (firstn i t ++ u " " ++ strip (cut_at_bracket (skipn (i + 3) t)))).
Proof.
  intros H. unfold parse_title, py_in. rewrite H.
  assert (Hs : py_split1 sep_dash t = [firstn i t; skipn (i + 3) t])
    by (unfold py_split1; now rewrite H).
  rewrite Hs.
  change (u "(") with [40]. change (u "[") with [91].
  now rewrite !head_split1_char, take_until_brackets.
Qed.

Lemma parse_title_none (t : pystr) :
  find_sub sep_dash t = None -> parse_title t = None.
Proof. intros H. unfold parse_title, py_in. now rewrite H. Qed.

(** C1 (as amended): the parser knows the one separator " - "; the title
    "A -- B [x] (y)" does not contain it and yields no song. *)
Theorem parse_title_only_dash (t : pystr) :
  (parse_title t = None <-> find_sub sep_dash t = None) /\
  parse_title (u "A -- B [x] (y)") = None.
Proof.
  split; [| vm_compute; reflexivity].
  split; [| apply parse_title_none].
  destruct (find_sub sep_dash t) as [i |] eqn:E; [| reflexivity].
  now rewrite (parse_title_found t i E).
Qed.

(** C1: the claim that "A -- B [x] (y)" yields artist "A" and title "B"
    fails: it yields no song. *)
Lemma parse_title_double_dash_counterexample :
  ~ (exists s, parse_title (u "A -- B [x] (y)") = Some s /\
               artist s = u "A" /\ title s = u "B").
Proof. intros [s [H _]]. vm_compute in H. discriminate H. Qed.

(** C2 (as amended): of the three posts, only "Foo - Bar [Rock] (2021)"
    yields a song (artist "Foo", title "Bar"); "NoSeparatorHere" and
    "Baz — Qux" yield none. *)
Theorem parse_feed3_one_song :
  parse_song_titles feed3 = [mk_song (u "Foo") (u "Bar") (u "Foo Bar")].
Proof. vm_compute. reflexivity. Qed.

(** C2: the feed does not yield the two songs Foo/Bar and Baz/Qux. *)
Lemma parse_feed3_counterexample :
  map (fun s => (artist s, title s)) (parse_song_titles feed3) <>
  [(u "Foo", u "Bar"); (u "Baz", u "Qux")].
Proof. vm_compute. discriminate. Qed.

(** C7: the query is built from the untrimmed left part of the title: for
    "Foo  - Bar" it is "Foo  Bar", not artist ++ " " ++ title = "Foo Bar". *)
Theorem query_uses_untrimmed_artist :
  parse_title (u "Foo  - Bar") = Some (mk_song (u "Foo") (u "Bar") (u "Foo  Bar")) /\
  u "Foo  Bar" <> u "Foo" ++ u " " ++ u "Bar".
Proof. split; [vm_compute; reflexivity | vm_compute; discriminate]. Qed.

(** C10: when " - " is found at index [i], the title is the remainder after
    it, cut at its first '[' or '(' and stripped; for
    "Artist - Song Title [Genre] (2020)" this is "Song Title". *)
Theorem title_cut_at_bracket (t : pystr) (i : nat)
    (Hsep : find_sub sep_dash t = Some i) :
  (exists s, parse_title t = Some s /\
             title s = strip (cut_at_bracket (skipn (i + List.length sep_dash) t))) /\
  option_map title (parse_title (u "Artist - Song Title [Genre] (2020)")) =
    Some (u "Song Title").
Proof.
  split; [| vm_compute; reflexivity].
  eexists. split; [exact (parse_title_found t i Hsep) | reflexivity].
Qed.

Lemma title_cut_at_bracket_witness :
  find_sub sep_dash (u "Artist - Song Title [Genre] (2020)") = Some 6%nat /\
  (exists s, parse_title (u "Artist - Song Title [Genre] (2020)") = Some s /\
     title s = strip (cut_at_bracket
                 (skipn (6 + List.length sep_dash) (u "Artist - Song Title [Genre] (2020)")))).
Proof.
  split; [vm_compute; reflexivity |].
  apply (title_cut_at_bracket _ 6). vm_compute. reflexivity.
Defined.

(** ** Batches of track insertion *)

Lemma div100_bounds (x : nat) : (100 * (x / 100) <= x < 100 * (x / 100) + 100)%nat.
Proof.
  pose proof (Nat.div_mod x 100 ltac:(lia)).
  pose proof (Nat.mod_upper_bound x 100 ltac:(lia)). lia.
Qed.

Section Batches.

Context {A : Type}.
Variable l : list A.
Let n := List.length l.

Lemma range_concat (fuel i : nat) :
  (n - i <= fuel)%nat ->
  List.concat (map (fun j => py_slice l j (j + 100)) (py_range_aux fuel i n 100)) = skipn i l.
Proof.
  revert i. induction fuel as [| f IH]; intros i Hf; simpl.
  - symmetry. apply skipn_all2. unfold n in Hf. lia.
  - destruct (Nat.ltb_spec i n) as [Hi | Hi]; simpl.
    + rewrite IH by lia. unfold py_slice.
      replace (i + 100 - i)%nat with 100%nat by lia.
      replace (i + 100)%nat with (100 + i)%nat by lia.
      rewrite <- skipn_skipn. apply firstn_skipn.
    + symmetry. apply skipn_all2. unfold n in Hi. lia.
Qed.

Lemma range_in (fuel i j : nat) : In j (py_range_aux fuel i n 100) -> (i <= j < n)%nat.
Proof.
  revert i. induction fuel as [| f IH]; intros i H; simpl in H; [contradiction |].
  destruct (Nat.ltb_spec i n); simpl in H; [| contradiction].
  destruct H as [<- | H]; [lia | specialize (IH _ H); lia].
Qed.

Lemma range_nth (fuel i k : nat) :
  (k < List.length (py_range_aux fuel i n 100))%nat ->
  nth k (py_range_aux fuel i n 100) 0%nat = (i + 100 * k)%nat.
Proof.
  revert i k. induction fuel as [| f IH]; intros i k H; simpl in *; [lia |].
  destruct (Nat.ltb_spec i n); simpl in *; [| lia].
  destruct k as [| k]; [lia |]. rewrite IH by lia. lia.
Qed.

Lemma range_length (fuel i : nat) :
  (n - i <= fuel)%nat ->
  List.length (py_range_aux fuel i n 100) = ((n - i + 99) / 100)%nat.
Proof.
  revert i. induction fuel as [| f IH]; intros i Hf; cbn [py_range_aux].
  - replace (n - i)%nat with 0%nat by lia. reflexivity.
  - destruct (Nat.ltb_spec i n) as [Hi | Hi]; cbn [List.length].
    + rewrite IH by lia.
      pose proof (div100_bounds (n - i + 99)).
      pose proof (div100_bounds (n - (i + 100) + 99)). lia.
    + replace (n - i)%nat with 0%nat by lia. reflexivity.
Qed.

End Batches.

Lemma for_each_trace {B} (xs : list B) (body : B -> M unit) (g : B -> list event) :
  (forall x tr, body x tr = (Ok tt, tr ++ g x)) ->
  forall tr, for_each xs body tr = (Ok tt, tr ++ flat_map g xs).
Proof.
  intros Hb. induction xs as [| x xs IH]; intros tr; simpl.
  - now rewrite app_nil_r.
  - unfold bind. rewrite Hb, IH. now rewrite app_assoc.
Qed.

Lemma flat_map_map' {B C D} (h : C -> list D) (f : B -> C) (xs : list B) :
  flat_map h (map f xs) = flat_map (fun x => h (f x)) xs.
Proof. induction xs as [| x xs IH]; simpl; [reflexivity | now rewrite IH]. Qed.

Lemma insert_batches_trace (pid : pystr) (track_ids : list pystr) (tr : list event) :
  insert_batches pid track_ids tr =
    (Ok tt, tr ++ flat_map (fun b => [EvAddItems pid b; EvPrint (MsgAdded (List.length b))])
                           (add_batches track_ids)).
Proof.
  unfold insert_batches. destruct track_ids as [| t ts] eqn:E.
  - simpl. now rewrite app_nil_r.
  - rewrite <- E. unfold add_batches. rewrite flat_map_map'.
    apply for_each_trace. intros x tr'.
    unfold bind, print, emit. simpl. now rewrite <- app_assoc.
Qed.

(** C9: track insertion issues one [playlist_add_items] call per batch of
    [add_batches], in order; the batches concatenate to the track list, batch
    [k] is [track_ids[100k : 100k+100]], there are ceil(len/100) of them,
    and 250 ids give batches of 100, 100 and 50. *)
Theorem insert_batches_in_order (pid : pystr) (track_ids : list pystr) (tr : list event) :
  insert_batches pid track_ids tr =
    (Ok tt, tr ++ flat_map (fun b => [EvAddItems pid b; EvPrint (MsgAdded (List.length b))])
                           (add_batches track_ids)) /\
  List.concat (add_batches track_ids) = track_ids /\
  List.length (add_batches track_ids) = ((List.length track_ids + 99) / 100)%nat /\
  (forall k, (k < List.length (add_batches track_ids))%nat ->
     nth k (add_batches track_ids) [] = firstn 100 (skipn (100 * k) track_ids)) /\
  (forall b, In b (add_batches track_ids) -> (0 < List.length b <= 100)%nat) /\
  (List.length track_ids = 250%nat ->
     map (@List.length pystr) (add_batches track_ids) = [100%nat; 100%nat; 50%nat]).
Proof.
  split; [apply insert_batches_trace |].
  unfold add_batches, py_range.
  split; [| split; [| split; [| split]]].
  - rewrite range_concat by lia. reflexivity.
  - rewrite length_map, range_length by lia. f_equal. lia.
  - intros k Hk. rewrite length_map in Hk.
    rewrite (nth_indep _ [] (py_slice track_ids 0 (0 + 100))) by (now rewrite length_map).
    rewrite (map_nth (fun j => py_slice track_ids j (j + 100)) _ 0%nat).
    rewrite range_nth by exact Hk. unfold py_slice. f_equal. lia.
  - intros b Hb. apply in_map_iff in Hb. destruct Hb as [j [<- Hj]].
    apply range_in in Hj. unfold py_slice.
    rewrite length_firstn, length_skipn. lia.
  - intros H250. rewrite H250. simpl.
    unfold py_slice. rewrite !length_firstn, !length_skipn. now rewrite H250.
Qed.

(** ** Traces only grow *)

Definition extends {A} (m : M A) : Prop :=
  forall tr, exists r suf, m tr = (r, tr ++ suf).

Definition total {A} (m : M A) : Prop :=
  forall tr, exists a suf, m tr = (Ok a, tr ++ suf).

Lemma ret_total {A} (a : A) : total (ret a).
Proof. intros tr. exists a, []. now rewrite app_nil_r. Qed.

Lemma emit_total (e : event) : total (emit e).
Proof. intros tr. now exists tt, [e]. Qed.

Lemma print_total (m : msg) : total (print m).
Proof. apply emit_total. Qed.

Lemma raise_extends {A} (e : exn) : extends (@raise A e).
Proof. intros tr. exists (Err e), []. now rewrite app_nil_r. Qed.

Lemma total_extends {A} (m : M A) : total m -> extends m.
Proof. intros H tr. destruct (H tr) as [a [suf E]]. eauto. Qed.

Lemma bind_total {A B} (m : M A) (k : A -> M B) :
  total m -> (forall a, total (k a)) -> total (bind m k).
Proof.
  intros Hm Hk tr. unfold bind. destruct (Hm tr) as [a [s1 E1]]. rewrite E1.
  destruct (Hk a (tr ++ s1)) as [b [s2 E2]]. rewrite E2.
  exists b, (s1 ++ s2). now rewrite app_assoc.
Qed.

Lemma bind_extends {A B} (m : M A) (k : A -> M B) :
  extends m -> (forall a, extends (k a)) -> extends (bind m k).
Proof.
  intros Hm Hk tr. unfold bind. destruct (Hm tr) as [r [s1 E1]]. rewrite E1.
  destruct r as [a | e].
  - destruct (Hk a (tr ++ s1)) as [r2 [s2 E2]]. rewrite E2.
    exists r2, (s1 ++ s2). now rewrite app_assoc.
  - eauto.
Qed.

Lemma for_each_total {B} (xs : list B) (body : B -> M unit) :
  (forall x, total (body x)) -> total (for_each xs body).
Proof.
  intros Hb. induction xs as [| x xs IH]; simpl.
  - apply ret_total.
  - apply bind_total; [apply Hb | intros; apply IH].
Qed.

Lemma try_except_total {A} (m : M A) (h : exn -> M A) :
  extends m -> (forall e, total (h e)) -> total (try_except m h).
Proof.
  intros Hm Hh tr. unfold try_except. destruct (Hm tr) as [r [s1 E1]]. rewrite E1.
  destruct r as [a | e]; [eauto |].
  destruct (Hh e (tr ++ s1)) as [a [s2 E2]]. rewrite E2.
  exists a, (s1 ++ s2). now rewrite app_assoc.
Qed.

Create HintDb trace.
#[local] Hint Resolve ret_total emit_total print_total raise_extends total_extends
  bind_total bind_extends for_each_total try_except_total : trace.

Ltac trace_auto :=
  repeat first
    [ progress (intros)
    | apply bind_total
    | apply bind_extends
    | apply for_each_total
    | apply try_except_total
    | solve [eauto with trace]
    | match goal with
      | |- total (match ?x with _ => _ end) => destruct x
      | |- extends (match ?x with _ => _ end) => destruct x
      | |- total (if ?b then _ else _) => destruct b
      | |- extends (if ?b then _ else _) => destruct b
      | |- total (let '(_, _) := ?p in _) => destruct p
      | |- extends (let '(_, _) := ?p in _) => destruct p
      end ].

Section Traces.

Variable w : world.

Lemma search_songs_total (songs : list song) (ids : list pystr) (nf : list song) :
  total (search_songs w songs ids nf).
Proof.
  revert ids nf. induction songs as [| s ss IH]; intros; simpl; trace_auto.
Qed.
#[local] Hint Resolve search_songs_total : trace.

Lemma create_spotify_playlist_total (songs : list song) :
  total (create_spotify_playlist w songs).
Proof. unfold create_spotify_playlist, insert_batches. trace_auto. Qed.


Lemma set_playlist_cover_total (pid : pystr) (b : bytes) :
  total (set_playlist_cover w pid b).
Proof. unfold set_playlist_cover. trace_auto. Qed.

Lemma get_reddit_posts_extends (sub : pystr) (limit : Z) :
  extends (get_reddit_posts w sub limit).
Proof. unfold get_reddit_posts. trace_auto. Qed.

End Traces.

(** ** Computations that do not read the trace *)

Definition oblivious {A} (m : M A) : Prop :=
  exists r suf, forall tr, m tr = (r, tr ++ suf).

Lemma ret_oblivious {A} (a : A) : oblivious (ret a).
Proof. exists (Ok a), []. intros tr. now rewrite app_nil_r. Qed.

Lemma emit_oblivious (e : event) : oblivious (emit e).
Proof. now exists (Ok tt), [e]. Qed.

Lemma print_oblivious (m : msg) : oblivious (print m).
Proof. apply emit_oblivious. Qed.

Lemma raise_oblivious {A} (e : exn) : oblivious (@raise A e).
Proof. exists (Err e), []. intros tr. now rewrite app_nil_r. Qed.

Lemma bind_oblivious {A B} (m : M A) (k : A -> M B) :
  oblivious m -> (forall a, oblivious (k a)) -> oblivious (bind m k).
Proof.
  intros [r [s1 Hm]] Hk. unfold bind. destruct r as [a | e].
  - destruct (Hk a) as [r2 [s2 H2]]. exists r2, (s1 ++ s2). intros tr.
    rewrite Hm, H2. now rewrite app_assoc.
  - exists (Err e), s1. intros tr. now rewrite Hm.
Qed.

Lemma try_catch_oblivious {A} (c : exn -> bool) (m : M A) (h : M A) :
  oblivious m -> oblivious h -> oblivious (try_catch c m h).
Proof.
  intros [r [s1 Hm]] [r2 [s2 H2]]. unfold try_catch.
  destruct r as [a | e].
  - exists (Ok a), s1. intros tr. now rewrite Hm.
  - destruct (c e) eqn:Ec.
    + exists r2, (s1 ++ s2). intros tr. rewrite Hm, Ec, H2. now rewrite app_assoc.
    + exists (Err e), s1. intros tr. now rewrite Hm, Ec.
Qed.

Ltac oblivious_auto :=
  repeat first
    [ progress (intros)
    | apply bind_oblivious
    | apply try_catch_oblivious
    | apply ret_oblivious
    | apply print_oblivious
    | apply emit_oblivious
    | apply raise_oblivious
    | match goal with
      | |- oblivious (match ?x with _ => _ end) => destruct x
      | |- oblivious (if ?b then _ else _) => destruct b
      | |- oblivious (let '(_, _) := ?p in _) => destruct p
      end ].

Lemma process_cover_oblivious (w : world) (im : image) : oblivious (process_cover w im).
Proof.
  unfold process_cover, resize_if_needed, draw_month, choose_font, truetype, text_dims,
    save_cover, save_jpeg, pil_resize, pil_load.
  oblivious_auto.
Qed.

Lemma process_cover_extends (w : world) (im : image) (tr : list event) :
  exists r suf, process_cover w im tr = (r, tr ++ suf) /\ fst (process_cover w im []) = r.
Proof.
  destruct (process_cover_oblivious w im) as [r [suf H]].
  exists r, suf. split; [apply H |]. now rewrite H.
Qed.

(** ** Cover step failures *)

Ltac close_ok := eexists; split; [reflexivity | eexists; rewrite <- ?app_assoc; reflexivity].
Ltac close_err := do 2 eexists; rewrite <- ?app_assoc; reflexivity.

Lemma cover_and_finish_cases (w : world) (pl : pystr) (tr : list event) :
  (cover_raises w = true -> exists e suf, cover_and_finish w pl tr = (Err e, tr ++ suf)) /\
  (cover_raises w = false ->
     exists pre, cover_and_finish w pl tr = (Ok tt, pre ++ [EvPrint MsgComplete]) /\
                 exists suf, pre = tr ++ suf).
Proof.
  unfold cover_and_finish, get_and_modify_cover_image, get_reddit_posts, cover_raises.
  unfold bind, print, emit, ret, raise.
  destruct (w_reddit w (u "earthporn") 1) as [code posts |] eqn:Er.
  2:{ split; [intros _; close_err | discriminate]. }
  destruct (code =? 200) eqn:Ec.
  2:{ cbn. split; [discriminate | intros _; close_ok]. }
  destruct posts as [| p ps].
  { cbn. split; [discriminate | intros _; close_ok]. }
  destruct (w_download w (data_url p)) as [c content |] eqn:Ed.
  2:{ cbn. split; [intros _; close_err | discriminate]. }
  destruct (c =? 200) eqn:Ec2.
  2:{ cbn. split; [discriminate | intros _; close_ok]. }
  destruct (w_open w content) as [im |] eqn:Eo.
  2:{ cbn. split; [intros _; close_err | discriminate]. }
  cbn -[process_cover set_playlist_cover].
  destruct (process_cover_oblivious w im) as [r1 [s1 E1]]. rewrite !E1. cbn [fst].
  destruct r1 as [[im' b] | e].
  2:{ split; [intros _; close_err | discriminate]. }
  split; [discriminate | intros _].
  cbn -[set_playlist_cover].
  match goal with |- context [set_playlist_cover w pl b ?X] =>
    destruct (set_playlist_cover_total w pl b X) as [ok [s2 E2]]; rewrite E2 end.
  close_ok.
Qed.

Lemma set_playlist_cover_fails (w : world) (pid : pystr) (b : bytes) (tr : list event) :
  w_upload_ok w b = false ->
  set_playlist_cover w pid b tr =
    (Ok false, tr ++ [EvUploadCover pid b; EvPrint (MsgUploadError ExnSpotify)]).
Proof.
  intros H. unfold set_playlist_cover, try_except, bind, emit, print, raise, ret.
  rewrite H. cbn. now rewrite <- app_assoc.
Qed.

(** C8 (as amended): in the cover step that follows playlist creation and
    track insertion, a missing cover post, a non-200 download and a failed
    upload (caught and logged) let the run finish with its completion
    message; a connection error, an image that cannot be opened, and any
    error of the processing itself (a lazy decode that fails, a resize to a
    side of 0, an uncaught retry of [draw.text], a font or encoder error
    other than the caught ones) raise out of the run.  In every case the trace so far, with the playlist creation
    and the insertions, is kept. *)
Theorem cover_failures_handled (w : world) (pl : pystr) (tr : list event) :
  (exists suf, snd (cover_and_finish w pl tr) = tr ++ suf) /\
  (fst (cover_and_finish w pl tr) = Ok tt <-> cover_raises w = false) /\
  (fst (cover_and_finish w pl tr) = Ok tt ->
     exists pre, snd (cover_and_finish w pl tr) = pre ++ [EvPrint MsgComplete]) /\
  (forall b tr0, w_upload_ok w b = false ->
     set_playlist_cover w pl b tr0 =
       (Ok false, tr0 ++ [EvUploadCover pl b; EvPrint (MsgUploadError ExnSpotify)])).
Proof.
  destruct (cover_and_finish_cases w pl tr) as [Hr Hok].
  split; [| split; [| split]].
  - destruct (cover_raises w).
    + destruct (Hr eq_refl) as [e [suf E]]. rewrite E. simpl. eauto.
    + destruct (Hok eq_refl) as [pre [E [suf ->]]]. rewrite E.
      exists (suf ++ [EvPrint MsgComplete]). simpl. now rewrite app_assoc.
  - destruct (cover_raises w).
    + destruct (Hr eq_refl) as [e [suf E]]. rewrite E. simpl. split; discriminate.
    + destruct (Hok eq_refl) as [pre [E _]]. rewrite E. simpl. tauto.
  - destruct (cover_raises w).
    + destruct (Hr eq_refl) as [e [suf E]]. rewrite E. discriminate.
    + destruct (Hok eq_refl) as [pre [E _]]. rewrite E. simpl. eauto.
  - intros b tr0. apply set_playlist_cover_fails.
Qed.

(** C8: a cover image that cannot be decoded is not caught: the run raises
    after creating the playlist and never prints its completion message. *)
Lemma undecodable_cover_counterexample :
  fst (create_monthly_playlist (sample_world None small_jpeg) []) = Err ExnImage /\
  In (EvCreatePlaylist (u "user") (u "r/listentothis 10/2026") true
        (u "Top tracks from r/listentothis for 10/2026."))
     (snd (create_monthly_playlist (sample_world None small_jpeg) [])) /\
  ~ In (EvPrint MsgComplete) (snd (create_monthly_playlist (sample_world None small_jpeg) [])).
Proof.
  split; [vm_compute; reflexivity |]. split.
  - vm_compute. right. right. right. right. right. left. reflexivity.
  - vm_compute. intros H. repeat (destruct H as [H | H]; [discriminate H |]). exact H.
Qed.

(** ** Cover image pipeline *)

Lemma oblivious_fst {A} (m : M A) (tr : list event) : oblivious m -> fst (m tr) = fst (m []).
Proof. intros [r [suf H]]. now rewrite !H. Qed.

Lemma bind_ok_inv {A B} (m : M A) (k : A -> M B) (tr : list event) (b : B) :
  fst (bind m k tr) = Ok b -> exists a tr1, m tr = (Ok a, tr1) /\ fst (k a tr1) = Ok b.
Proof.
  unfold bind. destruct (m tr) as [[a | e] tr1]; [eauto | discriminate].
Qed.

Section Cover.

Variable w : world.

Lemma resize_if_needed_oblivious (im : image) : oblivious (resize_if_needed w im).
Proof. unfold resize_if_needed, pil_resize, pil_load. oblivious_auto. Qed.

Lemma draw_month_oblivious (im : image) : oblivious (draw_month w im).
Proof. unfold draw_month, choose_font, truetype, text_dims, pil_load. oblivious_auto. Qed.

Lemma save_cover_oblivious (im : image) : oblivious (save_cover w im).
Proof. unfold save_cover, save_jpeg, pil_resize, pil_load. oblivious_auto. Qed.

Lemma pil_load_trace (im : image) (tr : list event) :
  pil_load w im tr = (fst (pil_load w im []), tr).
Proof.
  unfold pil_load. destruct (img_ops im); [destruct (w_load w (img_src im)) |]; reflexivity.
Qed.

Lemma pil_resize_trace (im : image) (nw nh : Z) (f : resample) (tr : list event) :
  pil_resize w im nw nh f tr = (fst (pil_resize w im nw nh f []), tr).
Proof.
  unfold pil_resize, pil_load, bind, ret, raise.
  destruct (img_ops im); [destruct (w_load w (img_src im)); [reflexivity |] |];
    (destruct ((nw =? width im) && (nh =? height im)); [reflexivity |]);
    (destruct ((nw <? 1) || (nh <? 1)); [reflexivity |]);
    destruct (w_resample w im); reflexivity.
Qed.

(** What a successful [image.resize] gives: a copy when the size is the
    same, otherwise the resized image, whose sides are then at least 1. *)
Lemma pil_resize_ok (im im' : image) (nw nh : Z) (f : resample) (tr : list event) :
  fst (pil_resize w im nw nh f tr) = Ok im' ->
  (nw = width im /\ nh = height im /\ im' = im) \/
  (1 <= nw /\ 1 <= nh /\ im' = img_resize im nw nh f).
Proof.
  unfold pil_resize, bind at 1. rewrite (pil_load_trace im tr).
  destruct (fst (pil_load w im [])) as [[] | e]; [| discriminate].
  unfold ret, raise.
  destruct ((nw =? width im) && (nh =? height im)) eqn:Es.
  - apply andb_true_iff in Es as [E1 E2]. apply Z.eqb_eq in E1, E2.
    cbn. intros H; injection H as <-. auto.
  - destruct ((nw <? 1) || (nh <? 1)) eqn:Ez; [discriminate |].
    apply orb_false_iff in Ez as [E1 E2]. apply Z.ltb_ge in E1, E2.
    destruct (w_resample w im); [discriminate |].
    cbn. intros H; injection H as <-. auto.
Qed.

(** [image.resize] to a new size with a side below 1 raises: [ValueError],
    unless decoding the image raises first. *)
Lemma pil_resize_zero (im : image) (nw nh : Z) (f : resample) (tr : list event) :
  (nw <> width im \/ nh <> height im) -> (nw < 1 \/ nh < 1) ->
  exists e, pil_resize w im nw nh f tr = (Err e, tr) /\
            (e = ExnValue \/ fst (pil_load w im tr) = Err e).
Proof.
  intros Hne Hz.
  unfold pil_resize, bind at 1. rewrite (pil_load_trace im tr).
  destruct (fst (pil_load w im [])) as [[] | e] eqn:L.
  2:{ exists e. split; [reflexivity |]. right. reflexivity. }
  replace ((nw =? width im) && (nh =? height im)) with false
    by (symmetry; apply andb_false_iff; destruct Hne as [H | H]; [left | right];
        apply Z.eqb_neq; exact H).
  replace ((nw <? 1) || (nh <? 1)) with true
    by (symmetry; apply orb_true_iff; destruct Hz as [H | H]; [left | right];
        apply Z.ltb_lt; exact H).
  exists ExnValue. auto.
Qed.

(** The size of the image after [resize_if_needed]. *)
Definition resized_size (im : image) : Z * Z :=
  if max_size <? Z.max (width im) (height im) then resize_dims (width im) (height im)
  else (width im, height im).

Lemma resize_if_needed_ok (im im' : image) (tr : list event) :
  fst (resize_if_needed w im tr) = Ok im' ->
  (width im', height im') = resized_size im /\ img_src im' = img_src im.
Proof.
  unfold resize_if_needed, resized_size.
  destruct (max_size <? Z.max (width im) (height im)); [| cbn; intros H; injection H as <-; auto].
  destruct (resize_dims (width im) (height im)) as [nw nh].
  intros H. apply bind_ok_inv in H as [im1 [tr1 [E1 H]]].
  unfold bind, print, emit, ret in H. cbn in H. injection H as <-.
  assert (R : fst (pil_resize w im nw nh LANCZOS tr) = Ok im1) by (rewrite E1; reflexivity).
  destruct (pil_resize_ok im im1 nw nh LANCZOS tr R) as [[-> [-> ->]] | [_ [_ ->]]]; auto.
Qed.

Lemma draw_texts_keeps (im : image) (ds : list draw_text) :
  width (fst (draw_texts w im ds)) = width im /\
  height (fst (draw_texts w im ds)) = height im /\
  img_src (fst (draw_texts w im ds)) = img_src im.
Proof.
  revert im. induction ds as [| d ds IH]; intros im; simpl; [auto |].
  destruct (w_text w im d); simpl; [auto |].
  destruct (IH (img_draw im d)) as [H1 [H2 H3]]. auto.
Qed.

Lemma draw_month_size (im im' : image) (tr : list event) :
  fst (draw_month w im tr) = Ok im' ->
  width im' = width im /\ height im' = height im /\ img_src im' = img_src im.
Proof.
  unfold draw_month. intros H.
  apply bind_ok_inv in H as [[] [t1 [_ H]]].
  apply bind_ok_inv in H as [f [t2 [_ H]]].
  apply bind_ok_inv in H as [[tw th] [t3 [_ H]]].
  match type of H with
  | context [draw_texts w im ?ds] =>
      destruct (draw_texts_keeps im ds) as [A1 [A2 A3]];
      destruct (draw_texts w im ds) as [im1 [e |]] eqn:E1
  end; cbn [fst] in A1, A2, A3.
  - destruct (is_typeerror e); [| discriminate].
    match type of H with
    | context [draw_texts w im1 ?ds] =>
        destruct (draw_texts_keeps im1 ds) as [B1 [B2 B3]];
        destruct (draw_texts w im1 ds) as [im2 [e' |]]
    end; cbn [fst] in B1, B2, B3; [discriminate |].
    cbn in H. injection H as <-. split; [| split]; congruence.
  - cbn in H. injection H as <-. auto.
Qed.

(** What a successful encoding step did: quality 85; over 200 KiB, quality
    70 on the same image; still over, the image resized to
    [int(side * 0.75)] and encoded at quality 70, whatever the size. *)
Definition save_cover_outcome (im im' : image) (buf : bytes) : Prop :=
  exists b85, w_jpeg w im 85 = Ok b85 /\
  ((over_budget b85 = false /\ im' = im /\ buf = b85) \/
   (over_budget b85 = true /\ exists b70, w_jpeg w im 70 = Ok b70 /\
      ((over_budget b70 = false /\ im' = im /\ buf = b70) \/
       (over_budget b70 = true /\
        fst (pil_resize w im (int_three_quarters (width im)) (int_three_quarters (height im))
               LANCZOS []) = Ok im' /\
        w_jpeg w im' 70 = Ok buf)))).

Lemma save_cover_ok_iff (im im' : image) (buf : bytes) (tr : list event) :
  fst (save_cover w im tr) = Ok (im', buf) <-> save_cover_outcome im im' buf.
Proof.
  unfold save_cover, save_cover_outcome, save_jpeg, bind, print, emit, ret, raise.
  destruct (w_jpeg w im 85) as [b85 | e85]; cbn -[pil_resize].
  2:{ split; [discriminate | intros [b [E _]]; discriminate]. }
  destruct (over_budget b85) eqn:O85.
  2:{ split.
      - intros H; injection H as <- <-. exists b85. split; [reflexivity | left; auto].
      - intros [b [E [[_ [-> ->]] | [O _]]]]; [injection E as <-; reflexivity | congruence]. }
  destruct (w_jpeg w im 70) as [b70 | e70]; cbn -[pil_resize].
  2:{ split; [discriminate |].
      intros [b [E [[O _] | [_ [b' [E' _]]]]]]; [congruence | discriminate]. }
  destruct (over_budget b70) eqn:O70.
  2:{ cbn. split.
      - intros H; injection H as <- <-. exists b85. split; [reflexivity |].
        right. split; [exact O85 |]. exists b70. split; [reflexivity | left; auto].
      - intros [b [E [[O _] | [_ [b' [E' [[_ [-> ->]] | [O' _]]]]]]]]; [congruence | | congruence].
        injection E' as <-. reflexivity. }
  rewrite pil_resize_trace.
  destruct (fst (pil_resize w im (int_three_quarters (width im))
                  (int_three_quarters (height im)) LANCZOS [])) as [im1 | e] eqn:R; cbn.
  - destruct (w_jpeg w im1 70) as [b | e] eqn:Jb; cbn; split.
    + intros H; injection H as <- <-. exists b85. split; [reflexivity |].
      right. split; [exact O85 |]. exists b70. split; [reflexivity |].
      right. split; [exact O70 |]. split; [reflexivity | exact Jb].
    + intros [c [E [[O _] | [_ [c' [E' [[O' _] | [_ [R' J]]]]]]]]]; congruence.
    + discriminate.
    + intros [c [E [[O _] | [_ [c' [E' [[O' _] | [_ [R' J]]]]]]]]]; congruence.
  - split; [discriminate |].
    intros [c [E [[O _] | [_ [c' [E' [[O' _] | [_ [R' J]]]]]]]]]; congruence.
Qed.

Lemma process_cover_ok (im im' : image) (buf : bytes) (tr : list event) :
  fst (process_cover w im tr) = Ok (im', buf) ->
  exists im1 im2, fst (resize_if_needed w im []) = Ok im1 /\
    fst (draw_month w im1 []) = Ok im2 /\ fst (save_cover w im2 []) = Ok (im', buf).
Proof.
  unfold process_cover. intros H.
  apply bind_ok_inv in H as [[] [t1 [_ H]]].
  apply bind_ok_inv in H as [im1 [t2 [E1 H]]].
  apply bind_ok_inv in H as [im2 [t3 [E2 H]]].
  exists im1, im2. split; [| split].
  - rewrite <- (oblivious_fst _ t1 (resize_if_needed_oblivious im)), E1. reflexivity.
  - rewrite <- (oblivious_fst _ t2 (draw_month_oblivious im1)), E2. reflexivity.
  - rewrite <- (oblivious_fst _ t3 (save_cover_oblivious im2)). exact H.
Qed.

(** C6 (as amended): the encoder tries quality 85; over 200 KiB it tries 70
    on the same image; still over, it resizes the image to [int(side * 0.75)]
    and encodes at 70, and returns that buffer whatever its size.  The step
    succeeds exactly along this sequence: an encoding or the resize that
    raises (a mode JPEG cannot store, a side shrunk to 0) propagates. *)
Theorem save_cover_escalation (im : image) (tr : list event) :
  (forall b, over_budget b = true <-> 200 * 1024 < Z.of_nat (List.length b)) /\
  (forall im' buf, fst (save_cover w im tr) = Ok (im', buf) <->
     exists b85, w_jpeg w im 85 = Ok b85 /\
     ((over_budget b85 = false /\ im' = im /\ buf = b85) \/
      (over_budget b85 = true /\ exists b70, w_jpeg w im 70 = Ok b70 /\
         ((over_budget b70 = false /\ im' = im /\ buf = b70) \/
          (over_budget b70 = true /\
           fst (pil_resize w im (int_three_quarters (width im)) (int_three_quarters (height im))
                  LANCZOS []) = Ok im' /\
           w_jpeg w im' 70 = Ok buf))))) /\
  (forall e, w_jpeg w im 85 = Err e -> fst (save_cover w im tr) = Err e).
Proof.
  split; [intros b; unfold over_budget; now rewrite Z.ltb_lt |].
  split; [intros im' buf; apply save_cover_ok_iff |].
  intros e E. unfold save_cover, save_jpeg, bind. now rewrite E.
Qed.


End Cover.


(** C6: with an encoder whose every output is one byte over 200 KiB, the
    pipeline returns a buffer over 200 KiB. *)
Lemma cover_over_budget_counterexample :
  match fst (get_and_modify_cover_image (sample_world (Some cover_src) large_jpeg) []) with
  | Ok (Some buf) => 200 * 1024 < Z.of_nat (List.length buf)
  | _ => False
  end.
Proof. vm_compute. reflexivity. Qed.


Lemma choose_font_ok (w : world) (tr : list event) (f : font) :
  fst (choose_font w tr) = Ok f ->
  (f = TrueType dejavu_path 60 /\ w_truetype w dejavu_path 60 = None) \/
  (f = TrueType arial_path 60 /\
   (exists e, w_truetype w dejavu_path 60 = Some e /\ is_oserror e = true) /\
   w_truetype w arial_path 60 = None) \/
  (f = DefaultFont /\
   (exists e, w_truetype w dejavu_path 60 = Some e /\ is_oserror e = true) /\
   (exists e, w_truetype w arial_path 60 = Some e /\ is_oserror e = true)).
Proof.
  unfold choose_font, try_catch, truetype, bind, print, emit, ret, raise.
  destruct (w_truetype w dejavu_path 60) as [e1 |] eqn:D.
  2:{ cbn. intros H; injection H as <-. left. auto. }
  destruct (is_oserror e1) eqn:O1; [| discriminate].
  destruct (w_truetype w arial_path 60) as [e2 |] eqn:A.
  2:{ cbn. intros H; injection H as <-. right. left.
      split; [reflexivity | split; [exists e1; auto | reflexivity]]. }
  destruct (is_oserror e2) eqn:O2; [| discriminate].
  cbn. intros H; injection H as <-. right. right.
  split; [reflexivity | split; [exists e1 | exists e2]; auto].
Qed.

Lemma text_dims_ok (w : world) (f : font) (text : pystr) (tr : list event) (tw th : Z) :
  fst (text_dims w f text tr) = Ok (tw, th) ->
  (exists x0 y0 x1 y1, w_textbbox w f text = Ok (x0, y0, x1, y1) /\
                       tw = x1 - x0 /\ th = y1 - y0) \/
  (w_textbbox w f text = Err ExnAttribute /\ w_textsize w f text = Ok (tw, th)).
Proof.
  unfold text_dims, try_catch, bind, print, emit, ret, raise.
  destruct (w_textbbox w f text) as [[[[x0 y0] x1] y1] | e] eqn:Bx.
  - cbn. intros H; injection H as <- <-. left. do 4 eexists. eauto.
  - destruct (is_attributeerror e) eqn:Ae; [| discriminate].
    destruct e; try discriminate.
    destruct (w_textsize w f text) as [[a b] | e'] eqn:Ts; [| discriminate].
    cbn. intros H; injection H as <- <-. right. auto.
Qed.

(** C5 (as amended): when the text step succeeds, the current month's name
    has been drawn twice, a shadow at (+2, +2) with a dark fill and then
    the main text with a light fill, at (width - text width - 20,
    height - text height - 20), in DejaVu Sans Bold 60, else Arial 60, else
    Pillow's default font; the fills carry alpha unless [draw.text] refused
    them with [TypeError], in which case both calls are made again without
    alpha (after a shadow already drawn, if only the main text refused).
    On an image whose every [draw.text] call raises [TypeError] (a
    single-band image refusing tuple fills) the step raises. *)
Theorem draw_month_text (w : world) (im : image) (tr : list event) :
  let month := month_name (snd (w_today w)) in
  (forall im', fst (draw_month w im tr) = Ok im' ->
   exists f tw th,
     ((f = TrueType dejavu_path 60 /\ w_truetype w dejavu_path 60 = None) \/
      (f = TrueType arial_path 60 /\
       (exists e, w_truetype w dejavu_path 60 = Some e /\ is_oserror e = true) /\
       w_truetype w arial_path 60 = None) \/
      (f = DefaultFont /\
       (exists e, w_truetype w dejavu_path 60 = Some e /\ is_oserror e = true) /\
       (exists e, w_truetype w arial_path 60 = Some e /\ is_oserror e = true))) /\
     ((exists x0 y0 x1 y1, w_textbbox w f month = Ok (x0, y0, x1, y1) /\
                           tw = x1 - x0 /\ th = y1 - y0) \/
      (w_textbbox w f month = Err ExnAttribute /\ w_textsize w f month = Ok (tw, th))) /\
     let x := width im - tw - 20 in
     let y := height im - th - 20 in
     img_src im' = img_src im /\ width im' = width im /\ height im' = height im /\
     (img_ops im' = img_ops im ++ [OpText (mk_draw_text (x + 2, y + 2) month f [0; 0; 0; 180]);
                                   OpText (mk_draw_text (x, y) month f [255; 255; 255; 230])] \/
      exists pre,
        (pre = [] \/ pre = [OpText (mk_draw_text (x + 2, y + 2) month f [0; 0; 0; 180])]) /\
        img_ops im' = img_ops im ++ pre ++
                        [OpText (mk_draw_text (x + 2, y + 2) month f [0; 0; 0]);
                         OpText (mk_draw_text (x, y) month f [255; 255; 255])])) /\
  ((forall i d, w_text w i d = Some ExnType) -> exists e, fst (draw_month w im tr) = Err e).
Proof.
  intros month. split.
  - intros im' H. unfold draw_month in H. fold month in H.
    apply bind_ok_inv in H as [[] [t1 [_ H]]].
    apply bind_ok_inv in H as [f [t2 [Ef H]]].
    apply bind_ok_inv in H as [[tw th] [t3 [Ed H]]].
    exists f, tw, th.
    split; [apply (choose_font_ok w t1); rewrite Ef; reflexivity |].
    split; [apply (text_dims_ok w f month t2); rewrite Ed; reflexivity |].
    cbv zeta. cbn [fst snd] in H.
    set (x := width im - tw - 20) in *. set (y := height im - th - 20) in *.
    unfold draw_texts in H.
    destruct (w_text w im (mk_draw_text (x + 2, y + 2) month f [0; 0; 0; 180])) as [e1 |].
    + destruct (is_typeerror e1); [| discriminate].
      destruct (w_text w im (mk_draw_text (x + 2, y + 2) month f [0; 0; 0])) as [e2 |];
        [discriminate |].
      destruct (w_text w (img_draw im (mk_draw_text (x + 2, y + 2) month f [0; 0; 0]))
                  (mk_draw_text (x, y) month f [255; 255; 255])) as [e3 |]; [discriminate |].
      cbn in H. injection H as <-. cbn.
      split; [reflexivity | split; [reflexivity | split; [reflexivity |]]].
      right. exists []. split; [left; reflexivity |]. now rewrite <- app_assoc.
    + destruct (w_text w (img_draw im (mk_draw_text (x + 2, y + 2) month f [0; 0; 0; 180]))
                  (mk_draw_text (x, y) month f [255; 255; 255; 230])) as [e2 |].
      * destruct (is_typeerror e2); [| discriminate].
        set (im1 := img_draw im (mk_draw_text (x + 2, y + 2) month f [0; 0; 0; 180])) in *.
        destruct (w_text w im1 (mk_draw_text (x + 2, y + 2) month f [0; 0; 0])) as [e3 |];
          [discriminate |].
        destruct (w_text w (img_draw im1 (mk_draw_text (x + 2, y + 2) month f [0; 0; 0]))
                    (mk_draw_text (x, y) month f [255; 255; 255])) as [e4 |]; [discriminate |].
        cbn in H. injection H as <-. unfold im1. cbn.
        split; [reflexivity | split; [reflexivity | split; [reflexivity |]]].
        right. eexists. split; [right; reflexivity |]. now rewrite <- !app_assoc.
      * cbn in H. injection H as <-. cbn.
        split; [reflexivity | split; [reflexivity | split; [reflexivity |]]].
        left. now rewrite <- app_assoc.
  - intros Hall. unfold draw_month, bind at 1.
    destruct (pil_load w im tr) as [[[] | e] t1]; [| exists e; reflexivity].
    unfold bind at 1. destruct (choose_font w t1) as [[f | e] t2]; [| exists e; reflexivity].
    unfold bind at 1.
    destruct (text_dims w f (month_name (snd (w_today w))) t2) as [[[tw th] | e] t3]; [| exists e; reflexivity].
    cbn [draw_texts]. rewrite !Hall. cbn. eauto.
Qed.

(** C5: where the DejaVu font loads, both texts are drawn at size 60, not 40. *)
Lemma month_font_size_counterexample :
  match fst (draw_month (sample_world (Some cover_src) small_jpeg) cover_src []) with
  | Ok im' =>
      map (fun op => match op with OpText d => Some (dt_font d) | _ => None end) (img_ops im') =
        [Some (TrueType dejavu_path 60); Some (TrueType dejavu_path 60)]
  | Err _ => False
  end.
Proof. vm_compute. reflexivity. Qed.

(** ** Float rounding in the downscale step *)

Lemma round_half_even_spec (n d : Z) :
  0 < d ->
  2 * (PyFloat.round_half_even n d * d - n) <= d /\
  2 * (n - PyFloat.round_half_even n d * d) <= d.
Proof.
  intros Hd. unfold PyFloat.round_half_even.
  pose proof (Z.div_mod n d ltac:(lia)) as Hdm.
  pose proof (Z.mod_pos_bound n d Hd) as Hr.
  set (q := n / d) in *. set (r := n mod d) in *.
  destruct ((d <? 2 * r) || ((2 * r =? d) && Z.odd q)) eqn:Hb.
  - assert (d <= 2 * r).
    { apply orb_true_iff in Hb. destruct Hb as [Hb | Hb].
      - apply Z.ltb_lt in Hb. lia.
      - apply andb_true_iff in Hb. destruct Hb as [Hb _]. apply Z.eqb_eq in Hb. lia. }
    nia.
  - assert (2 * r <= d).
    { apply orb_false_iff in Hb. destruct Hb as [Hb _]. apply Z.ltb_ge in Hb. lia. }
    nia.
Qed.

Lemma ilog2_lower (n d : Z) :
  0 < n -> 0 < d ->
  (0 <= PyFloat.ilog2_Q n d -> d * 2 ^ PyFloat.ilog2_Q n d <= n) /\
  (PyFloat.ilog2_Q n d < 0 -> d <= n * 2 ^ (- PyFloat.ilog2_Q n d)).
Proof.
  intros Hn Hd. unfold PyFloat.ilog2_Q.
  pose proof (Z.log2_spec n Hn) as [Hn1 Hn2].
  pose proof (Z.log2_spec d Hd) as [Hd1 Hd2].
  pose proof (Z.log2_nonneg n). pose proof (Z.log2_nonneg d).
  set (ln := Z.log2 n) in *. set (ld := Z.log2 d) in *.
  destruct (0 <=? ln - ld) eqn:Ha.
  - apply Z.leb_le in Ha.
    destruct (d * 2 ^ (ln - ld) <=? n) eqn:Hc.
    + apply Z.leb_le in Hc. split; [auto | lia].
    + split; intros Hk.
      * (* d * 2^(a-1) < 2^(ld+1) * 2^(a-1) = 2^ln <= n *)
        assert (E : 2 ^ (ld + 1) * 2 ^ (ln - ld - 1) = 2 ^ ln)
          by (rewrite <- Z.pow_add_r by lia; f_equal; lia).
        assert (0 < 2 ^ (ln - ld - 1)) by (apply Z.pow_pos_nonneg; lia).
        nia.
      * assert (E : 2 ^ ln * 2 ^ (- (ln - ld - 1)) = 2 ^ (ld + 1))
          by (rewrite <- Z.pow_add_r by lia; f_equal; lia).
        assert (0 < 2 ^ (- (ln - ld - 1))) by (apply Z.pow_pos_nonneg; lia).
        nia.
  - apply Z.leb_gt in Ha.
    destruct (d <=? n * 2 ^ (- (ln - ld))) eqn:Hc.
    + apply Z.leb_le in Hc. split; [lia | auto].
    + split; intros Hk; [lia |].
      assert (E : 2 ^ ln * 2 ^ (- (ln - ld - 1)) = 2 ^ (ld + 1))
        by (rewrite <- Z.pow_add_r by lia; f_equal; lia).
      assert (0 < 2 ^ (- (ln - ld - 1))) by (apply Z.pow_pos_nonneg; lia).
      nia.
Qed.

Lemma round_bounds (x : Q) :
  (0 <= x -> x * (1 - eps) <= PyFloat.round x /\ PyFloat.round x <= x * (1 + eps))%Q.
Proof.
  destruct x as [n dd]. intros Hx. unfold PyFloat.round. cbn [Qnum Qden].
  assert (Hn0 : 0 <= n) by (unfold Qle in Hx; simpl in Hx; lia).
  destruct (n <=? 0) eqn:Hn.
  - apply Z.leb_le in Hn. assert (n = 0) by lia. subst n.
    unfold eps, Qle; simpl; split; lia.
  - apply Z.leb_gt in Hn.
    pose proof (ilog2_lower n (Zpos dd) Hn ltac:(lia)) as [Hk1 Hk2].
    set (k := PyFloat.ilog2_Q n (Zpos dd)) in *.
    destruct (0 <=? k - 52) eqn:He.
    + apply Z.leb_le in He.
      set (P := 2 ^ (k - 52)).
      assert (HP : 0 < P) by (apply Z.pow_pos_nonneg; lia).
      assert (HkP : 2 ^ k = P * 4503599627370496)
        by (unfold P; change 4503599627370496 with (2 ^ 52);
            rewrite <- Z.pow_add_r by lia; f_equal; lia).
      specialize (Hk1 ltac:(lia)). rewrite HkP in Hk1.
      pose proof (round_half_even_spec n (Zpos dd * P) ltac:(nia)) as [R1 R2].
      set (q := PyFloat.round_half_even n (Zpos dd * P)) in *.
      unfold eps, Qle; simpl. rewrite !Pos2Z.inj_mul. split; nia.
    + apply Z.leb_gt in He.
      set (P := 2 ^ (- (k - 52))).
      assert (HP : 0 < P) by (apply Z.pow_pos_nonneg; lia).
      assert (HnP : Zpos dd * 4503599627370496 <= n * P).
      { destruct (Z.le_gt_cases 0 k) as [Hk | Hk].
        - specialize (Hk1 Hk).
          assert (E : 2 ^ k * P = 4503599627370496)
            by (unfold P; change 4503599627370496 with (2 ^ 52);
                rewrite <- Z.pow_add_r by lia; f_equal; lia).
          nia.
        - specialize (Hk2 Hk).
          assert (E : P = 4503599627370496 * 2 ^ (- k))
            by (unfold P; change 4503599627370496 with (2 ^ 52);
                rewrite <- Z.pow_add_r by lia; f_equal; lia).
          rewrite E. nia. }
      pose proof (round_half_even_spec (n * P) (Zpos dd) ltac:(lia)) as [R1 R2].
      set (q := PyFloat.round_half_even (n * P) (Zpos dd)) in *.
      unfold eps, Qle; simpl. rewrite !Pos2Z.inj_mul, Z2Pos.id by exact HP. split; nia.
Qed.

Lemma to_int_floor (x : Q) : PyFloat.to_int x = Qfloor x.
Proof. now destruct x. Qed.

Lemma int_scale_bounds (w0 m : Z) :
  0 <= w0 <= m -> 1500 < m ->
  0 <= int_scale w0 1500 m <= 1500 /\ int_scale w0 1500 m <= w0 /\
  w0 * 1500 / m - 1 <= int_scale w0 1500 m.
Proof.
  intros Hw Hm.
  unfold int_scale, PyFloat.mul, PyFloat.of_int, PyFloat.int_truediv.
  rewrite to_int_floor.
  set (W := inject_Z w0). set (M := inject_Z m).
  assert (HW : (0 <= W)%Q) by (unfold W; change 0%Q with (inject_Z 0); rewrite <- Zle_Qle; lia).
  assert (HWM : (W <= M)%Q) by (unfold W, M; rewrite <- Zle_Qle; lia).
  assert (HM : (1501 <= M)%Q) by (unfold M; change 1501%Q with (inject_Z 1501); rewrite <- Zle_Qle; lia).
  set (X := (inject_Z 1500 / M)%Q).
  assert (HXM : (X * M == 1500)%Q).
  { unfold X. rewrite Qmult_comm. apply Qmult_div_r. intros E. lra. }
  assert (HX : (0 <= X)%Q).
  { unfold X, Qdiv. apply Qmult_le_0_compat; [discriminate |]. apply Qinv_le_0_compat. lra. }
  set (Y := (W * X)%Q).
  assert (HYM : (Y * M == 1500 * W)%Q) by (unfold Y; rewrite <- Qmult_assoc, HXM; ring).
  assert (HY0 : (0 <= Y)%Q) by (unfold Y; apply Qmult_le_0_compat; assumption).
  assert (HY1 : (Y <= 1500)%Q) by nra.
  assert (HY2 : (Y * 1501 <= 1500 * W)%Q) by nra.
  destruct (round_bounds X HX) as [Xl Xu].
  destruct (round_bounds W HW) as [Wl Wu].
  set (r := PyFloat.round X) in *. set (fw := PyFloat.round W) in *.
  assert (Hr0 : (0 <= r)%Q) by (unfold eps in *; nra).
  assert (Hfw0 : (0 <= fw)%Q) by (unfold eps in *; nra).
  assert (Hp0 : (0 <= fw * r)%Q) by (apply Qmult_le_0_compat; assumption).
  assert (Hpu : (fw * r <= Y * ((1 + eps) * (1 + eps)))%Q).
  { setoid_replace (Y * ((1 + eps) * (1 + eps)))%Q with ((W * (1 + eps)) * (X * (1 + eps)))%Q
      by (unfold Y; ring).
    apply Qmult_le_compat_nonneg; split; assumption. }
  assert (Hpl : (Y * ((1 - eps) * (1 - eps)) <= fw * r)%Q).
  { setoid_replace (Y * ((1 - eps) * (1 - eps)))%Q with ((W * (1 - eps)) * (X * (1 - eps)))%Q
      by (unfold Y; ring).
    apply Qmult_le_compat_nonneg; split; try assumption;
      apply Qmult_le_0_compat; unfold eps; lra. }
  destruct (round_bounds (fw * r) Hp0) as [Vl Vu].
  set (v := PyFloat.round (fw * r)) in *.
  assert (Hvu : (v <= Y * ((1 + eps) * (1 + eps) * (1 + eps)))%Q).
  { apply (Qle_trans _ _ _ Vu).
    setoid_replace (Y * ((1 + eps) * (1 + eps) * (1 + eps)))%Q
      with ((Y * ((1 + eps) * (1 + eps))) * (1 + eps))%Q by ring.
    apply Qmult_le_compat_r; [assumption | unfold eps; lra]. }
  assert (Hvl : (Y * ((1 - eps) * (1 - eps) * (1 - eps)) <= v)%Q).
  { eapply Qle_trans; [| exact Vl].
    setoid_replace (Y * ((1 - eps) * (1 - eps) * (1 - eps)))%Q
      with ((Y * ((1 - eps) * (1 - eps))) * (1 - eps))%Q by ring.
    apply Qmult_le_compat_r; [assumption | unfold eps; lra]. }
  unfold eps in Hvu, Hvl.
  pose proof (Qfloor_le v) as F1. pose proof (Qlt_floor v) as F2.
  set (f := Qfloor v) in *.
  assert (Hdiv : (inject_Z (w0 * 1500 / m) <= Y)%Q).
  { pose proof (Z.mul_div_le (w0 * 1500) m ltac:(lia)) as D.
    assert (D' : (inject_Z (w0 * 1500 / m) * M <= 1500 * W)%Q).
    { unfold M, W. rewrite <- inject_Z_mult. change 1500%Q with (inject_Z 1500).
      rewrite <- inject_Z_mult, <- Zle_Qle. lia. }
    nra. }
  rewrite inject_Z_plus in F2. change (inject_Z 1) with 1%Q in F2.
  repeat split.
  - assert (inject_Z (-1) < inject_Z f)%Q by (change (inject_Z (-1)) with (-1)%Q; lra).
    rewrite <- Zlt_Qlt in H. lia.
  - assert (inject_Z f < inject_Z 1501)%Q by (change (inject_Z 1501) with 1501%Q; lra).
    rewrite <- Zlt_Qlt in H. lia.
  - assert (inject_Z f < inject_Z (w0 + 1))%Q by (rewrite inject_Z_plus; fold W; change (inject_Z 1) with 1%Q; lra).
    rewrite <- Zlt_Qlt in H. lia.
  - assert (inject_Z (w0 * 1500 / m) < inject_Z (f + 2))%Q.
    { rewrite inject_Z_plus. change (inject_Z 2) with 2%Q. lra. }
    rewrite <- Zlt_Qlt in H. lia.
Qed.

(** C4 (as amended): an image whose larger side is at most 1500 is left as
    it is; for a larger one the code computes [int(side * (1500 / max))] on
    each side (no side grows, none exceeds 1500, each is within one pixel
    of [side * 1500 // max]) and asks Pillow for a LANCZOS resize to that
    size.  When it succeeds the image has that size and "Resized to" is
    printed; when a computed side is 0 (a 3001x1 source gives (1500, 0)) the
    resize raises [ValueError] (or the decoding error, if decoding fails
    first) and nothing is printed. *)
Theorem resize_if_needed_bounds (w : world) (im : image) (tr : list event) :
  0 <= width im -> 0 <= height im ->
  let m := Z.max (width im) (height im) in
  (m <= max_size -> resize_if_needed w im tr = (Ok im, tr)) /\
  (max_size < m ->
   let '(nw, nh) := resize_dims (width im) (height im) in
   0 <= nw <= width im /\ 0 <= nh <= height im /\
   nw <= max_size /\ nh <= max_size /\
   width im * max_size / m - 1 <= nw /\ height im * max_size / m - 1 <= nh /\
   (forall im', fst (resize_if_needed w im tr) = Ok im' ->
      im' = img_resize im nw nh LANCZOS /\ 1 <= nw /\ 1 <= nh /\
      resize_if_needed w im tr = (Ok im', tr ++ [EvPrint (MsgResized nw nh)])) /\
   (nw = 0 \/ nh = 0 ->
      exists e, resize_if_needed w im tr = (Err e, tr) /\
                (e = ExnValue \/ fst (pil_load w im tr) = Err e))).
Proof.
  intros Hw Hh m. unfold resize_if_needed. fold m. split.
  - intros Hm. replace (max_size <? m) with false by (symmetry; apply Z.ltb_ge; exact Hm).
    reflexivity.
  - intros Hm. replace (max_size <? m) with true by (symmetry; apply Z.ltb_lt; exact Hm).
    unfold resize_dims. fold m.
    assert (Hm' : 1500 < m) by exact Hm.
    destruct (int_scale_bounds (width im) m ltac:(lia) Hm') as [A1 [A2 A3]].
    destruct (int_scale_bounds (height im) m ltac:(lia) Hm') as [B1 [B2 B3]].
    set (nw := int_scale (width im) max_size m). set (nh := int_scale (height im) max_size m).
    assert (Hne : nw <> width im \/ nh <> height im).
    { unfold nw, nh, max_size. destruct (Z.max_spec (width im) (height im)) as [[_ E] | [_ E]];
        fold m in E; [right | left]; lia. }
    unfold max_size in *. split; [lia |]. split; [lia |]. split; [lia |]. split; [lia |].
    split; [lia |]. split; [lia |]. split.
    + intros im' H. unfold bind, print, emit, ret in H |- *. rewrite pil_resize_trace in H |- *.
      destruct (fst (pil_resize w im nw nh LANCZOS [])) as [im1 | e] eqn:R; [| discriminate].
      cbn in H. injection H as <-.
      destruct (pil_resize_ok w im im1 nw nh LANCZOS [] R) as [[E1 [E2 _]] | [N1 [N2 ->]]];
        [lia |].
      split; [reflexivity | split; [exact N1 | split; [exact N2 |]]]. reflexivity.
    + intros Hz. destruct (pil_resize_zero w im nw nh LANCZOS tr Hne ltac:(lia)) as [e [E He]].
      exists e. unfold bind at 1. rewrite E. auto.
Qed.

Lemma resize_if_needed_bounds_witness :
  (0 <= 3001 /\ 0 <= 1) /\
  fst (resize_if_needed (sample_world (Some cover_src) small_jpeg) (mk_image 2 3001 1 []) []) =
    Err ExnValue.
Proof.
  split; [lia |].
  destruct (resize_if_needed_bounds (sample_world (Some cover_src) small_jpeg)
              (mk_image 2 3001 1 []) [] ltac:(simpl; lia) ltac:(simpl; lia)) as [_ H].
  assert (Hlt : max_size < Z.max (width (mk_image 2 3001 1 [])) (height (mk_image 2 3001 1 [])))
    by (unfold max_size; simpl; lia).
  specialize (H Hlt).
  assert (Hd : resize_dims (width (mk_image 2 3001 1 [])) (height (mk_image 2 3001 1 [])) = (1500, 0))
    by (vm_compute; reflexivity).
  rewrite Hd in H.
  destruct H as [_ [_ [_ [_ [_ [_ [_ Hz]]]]]]].
  destruct (Hz (or_intror eq_refl)) as [e [E [-> | L]]].
  - rewrite E. reflexivity.
  - rewrite E. vm_compute in L. discriminate L.
Defined.

(** C4: a 1000x500 source is not downscaled; its larger side stays 1000,
    above 500. *)
Lemma resize_bound_500_counterexample :
  match fst (resize_if_needed (sample_world (Some cover_src) small_jpeg) cover_src []) with
  | Ok im' => im' = cover_src /\ 500 < Z.max (width im') (height im')
  | Err _ => False
  end.
Proof. vm_compute. split; reflexivity. Qed.

(** * Further properties of the code *)

(** ** Strings: [strip], [find], [split] and [str] *)

Lemma lstrip_suffix (s : pystr) : exists p, s = p ++ lstrip s.
Proof.
  induction s as [| c s [p E]]; [now exists [] |]. simpl.
  destruct (py_isspace c); [exists (c :: p); simpl; congruence | now exists []].
Qed.

Lemma lstrip_head (s : pystr) :
  match lstrip s with [] => True | c :: _ => py_isspace c = false end.
Proof.
  induction s as [| c s IH]; simpl; [exact I |].
  destruct (py_isspace c) eqn:E; [exact IH | exact E].
Qed.

Lemma lstrip_id (s : pystr) :
  match s with [] => True | c :: _ => py_isspace c = false end -> lstrip s = s.
Proof. destruct s as [| c s]; simpl; intros H; [reflexivity | now rewrite H]. Qed.

Lemma strip_infix (s : pystr) : exists p q, s = p ++ strip s ++ q.
Proof.
  destruct (lstrip_suffix s) as [p E1].
  destruct (lstrip_suffix (rev (lstrip s))) as [q E2].
  exists p, (rev q). unfold strip. rewrite E1 at 1. f_equal.
  set (b := lstrip (rev (lstrip s))) in *.
  rewrite <- rev_app_distr, <- E2, rev_involutive. reflexivity.
Qed.

Lemma strip_idem (s : pystr) : strip (strip s) = strip s.
Proof.
  unfold strip at 2 3. set (a := lstrip s). set (b := lstrip (rev a)).
  destruct (lstrip_suffix (rev a)) as [q E2]. fold b in E2.
  assert (Ea : a = rev b ++ rev q)
    by (rewrite <- (rev_involutive a), E2; apply rev_app_distr).
  assert (Hb : lstrip (rev b) = rev b).
  { apply lstrip_id. pose proof (lstrip_head s) as H. fold a in H.
    rewrite Ea in H. destruct (rev b); [exact I | exact H]. }
  unfold strip. rewrite Hb, rev_involutive.
  f_equal. apply lstrip_id. apply lstrip_head.
Qed.

Lemma in_strip (c : Z) (s : pystr) : In c (strip s) -> In c s.
Proof.
  intros H. destruct (strip_infix s) as [p [q E]]. rewrite E.
  apply in_or_app. right. apply in_or_app. now left.
Qed.

Lemma prefixb_app (p s : pystr) : prefixb p s = true <-> exists r, s = p ++ r.
Proof.
  revert s. induction p as [| x p IH]; intros s; simpl.
  - split; [intros _; now exists s | auto].
  - destruct s as [| y s].
    + split; [discriminate | intros [r E]; discriminate E].
    + rewrite andb_true_iff, Z.eqb_eq, IH. split.
      * intros [-> [r ->]]. now exists r.
      * intros [r E]. injection E as -> E. split; [reflexivity | eauto].
Qed.

Lemma find_sub_spec (needle hay : pystr) (i : nat) :
  find_sub needle hay = Some i ->
  prefixb needle (skipn i hay) = true /\
  (forall j, (j < i)%nat -> prefixb needle (skipn j hay) = false).
Proof.
  revert i. induction hay as [| c hay IH]; intros i H; simpl in H.
  - destruct (prefixb needle []) eqn:E; [| discriminate].
    injection H as <-. split; [exact E | lia].
  - destruct (prefixb needle (c :: hay)) eqn:E.
    + injection H as <-. split; [exact E | lia].
    + destruct (find_sub needle hay) as [k |]; [| discriminate].
      injection H as <-. destruct (IH k eq_refl) as [H1 H2].
      split; [exact H1 |]. intros [| j] Hj; [exact E |]. apply H2. lia.
Qed.

Lemma find_sub_none (needle hay : pystr) :
  find_sub needle hay = None -> forall j, prefixb needle (skipn j hay) = false.
Proof.
  induction hay as [| c hay IH]; intros H j; simpl in H.
  - destruct (prefixb needle []) eqn:E; [discriminate |]. now destruct j.
  - destruct (prefixb needle (c :: hay)) eqn:E; [discriminate |].
    destruct (find_sub needle hay); [discriminate |].
    destruct j as [| j]; [exact E | apply IH; reflexivity].
Qed.

(** An occurrence of [sep] in [x]. *)
Lemma occurrence_prefixb (sep x a b : pystr) :
  x = a ++ sep ++ b -> prefixb sep (skipn (List.length a) x) = true.
Proof.
  intros ->. rewrite skipn_app, skipn_all, Nat.sub_diag. simpl.
  apply prefixb_app. eauto.
Qed.

Lemma find_sub_first_block (sep t : pystr) (i : nat) :
  sep <> [] -> find_sub sep t = Some i ->
  ~ (exists a b, firstn i t = a ++ sep ++ b).
Proof.
  intros Hne H [a [b E]]. destruct (find_sub_spec sep t i H) as [_ H2].
  assert (Hl : (List.length a < i)%nat).
  { pose proof (f_equal (@List.length Z) E) as L.
    rewrite length_firstn, !length_app in L. destruct sep; [congruence |]. simpl in L. lia. }
  specialize (H2 _ Hl).
  rewrite <- (firstn_skipn i t), E, <- !app_assoc in H2.
  rewrite (occurrence_prefixb sep _ a (b ++ skipn i t)) in H2; [discriminate |].
  reflexivity.
Qed.

Lemma dec_value_aux_app (v : Z) (a b : pystr) :
  dec_value_aux v (a ++ b) = dec_value_aux (dec_value_aux v a) b.
Proof. revert v. induction a as [| c a IH]; intros v; simpl; [reflexivity | apply IH]. Qed.

Lemma digits_aux_spec (fuel : nat) (n : Z) (acc : pystr) :
  (0 < fuel)%nat -> 0 <= n < 2 ^ Z.of_nat fuel ->
  exists d, digits_aux fuel n acc = d ++ acc /\
    Forall (fun c => 48 <= c <= 57) d /\
    (forall v, dec_value_aux v d = v * 10 ^ Z.of_nat (List.length d) + n) /\
    (0 < n -> hd 0 d <> 48) /\ d <> [].
Proof.
  revert n acc. induction fuel as [| f IH]; intros n acc Hf Hn; [lia |].
  pose proof (Z.mod_pos_bound n 10 ltac:(lia)).
  pose proof (Z.div_mod n 10 ltac:(lia)).
  cbn [digits_aux]. destruct (Z.ltb_spec n 10) as [Hlt | Hge].
  - exists [48 + n mod 10]. rewrite Z.mod_small in * by lia.
    split; [reflexivity |]. split; [constructor; [lia | constructor] |].
    split; [intros v; cbn [dec_value_aux]; change (Z.of_nat (List.length [48 + n])) with 1; rewrite Z.pow_1_r; lia |]. split; [cbn [hd]; lia | discriminate].
  - assert (Hq : 0 <= n / 10 < 2 ^ Z.of_nat f).
    { split; [apply Z.div_pos; lia |].
      rewrite Nat2Z.inj_succ, Z.pow_succ_r in Hn by lia. lia. }
    assert (Hf' : (0 < f)%nat).
    { destruct f; [simpl in Hq; lia | lia]. }
    destruct (IH (n / 10) (48 + n mod 10 :: acc) Hf' Hq) as [d [E [F [V [L N]]]]].
    exists (d ++ [48 + n mod 10]). split; [rewrite E, <- app_assoc; reflexivity |].
    split; [apply Forall_app; split; [exact F | constructor; [lia | constructor]] |].
    split; [| split].
    + intros v. rewrite dec_value_aux_app, V. cbn [dec_value_aux].
      rewrite length_app, Nat2Z.inj_add, Z.pow_add_r by lia. cbn [List.length Nat.add]. rewrite Z.pow_1_r. nia.
    + intros _. destruct d as [| c d]; [congruence |]. simpl. apply L.
      assert (0 < n / 10) by (apply Z.div_str_pos; lia). lia.
    + destruct d; discriminate.
Qed.

Lemma cut_at_bracket_clean (x : pystr) :
  ~ In 91 (cut_at_bracket x) /\ ~ In 40 (cut_at_bracket x).
Proof.
  induction x as [| c x [IH1 IH2]]; simpl; [tauto |].
  destruct (Z.eqb_spec c 91); [simpl; tauto |].
  destruct (Z.eqb_spec c 40); simpl; [tauto |].
  split; intros [E | E]; try congruence; tauto.
Qed.

Lemma parse_title_some (t : pystr) (s : song) :
  parse_title t = Some s ->
  exists i, find_sub sep_dash t = Some i /\
    s = mk_song (strip (firstn i t))
                (strip (cut_at_bracket (skipn (i + 3) t)))
                (firstn i t ++ u " " ++ strip (cut_at_bracket (skipn (i + 3) t))).
Proof.
  intros H. destruct (find_sub sep_dash t) as [i |] eqn:E.
  - exists i. split; [reflexivity |]. rewrite (parse_title_found t i E) in H. congruence.
  - rewrite (parse_title_none t E) in H. discriminate.
Qed.

Lemma in_parse_song_titles (posts : list post) (s : song) :
  In s (parse_song_titles posts) ->
  exists p, In p posts /\ parse_title (data_title p) = Some s.
Proof.
  induction posts as [| p ps IH]; simpl; [tauto |].
  destruct (parse_title (data_title p)) as [s' |] eqn:E.
  - intros [<- | H]; [eauto |]. destruct (IH H) as [q [Hq Eq]]. eauto.
  - intros H. destruct (IH H) as [q [Hq Eq]]. eauto.
Qed.

(** [parse_song_titles] handles each post on its own: the songs of a
    concatenation of feeds are the songs of each feed, in order; a feed
    never yields more songs than posts, and yields none exactly when no
    title contains " - ". *)
Theorem parse_song_titles_app (ps qs : list post) :
  parse_song_titles (ps ++ qs) = parse_song_titles ps ++ parse_song_titles qs /\
  (List.length (parse_song_titles ps) <= List.length ps)%nat /\
  (parse_song_titles ps = [] <->
   Forall (fun p => find_sub sep_dash (data_title p) = None) ps).
Proof.
  induction ps as [| p ps [IH1 [IH2 IH3]]]; simpl.
  - split; [reflexivity | split; [lia | split; constructor]].
  - destruct (find_sub sep_dash (data_title p)) as [i |] eqn:E.
    + rewrite (parse_title_found _ i E). simpl. rewrite IH1.
      split; [reflexivity | split; [lia |]].
      split; [discriminate | intros H; inversion H; congruence].
    + rewrite (parse_title_none _ E). rewrite IH1.
      split; [reflexivity | split; [lia |]].
      rewrite IH3. split; [intros H; now constructor | intros H; now inversion H].
Qed.

(** Every song of [parse_song_titles] has an artist and a title without
    leading or trailing whitespace: stripping them again changes nothing. *)
Theorem parse_song_titles_stripped (posts : list post) (s : song) :
  In s (parse_song_titles posts) ->
  strip (artist s) = artist s /\ strip (title s) = title s.
Proof.
  intros H. destruct (in_parse_song_titles posts s H) as [p [_ Hp]].
  destruct (parse_title_some _ _ Hp) as [i [_ ->]]. simpl.
  split; apply strip_idem.
Qed.

Lemma parse_song_titles_stripped_witness :
  In (mk_song (u "Foo") (u "Bar") (u "Foo Bar")) (parse_song_titles feed3) /\
  strip (artist (mk_song (u "Foo") (u "Bar") (u "Foo Bar"))) = u "Foo" /\
  strip (title (mk_song (u "Foo") (u "Bar") (u "Foo Bar"))) = u "Bar".
Proof.
  assert (H : In (mk_song (u "Foo") (u "Bar") (u "Foo Bar")) (parse_song_titles feed3))
    by (vm_compute; left; reflexivity).
  split; [exact H |].
  exact (parse_song_titles_stripped feed3 _ H).
Defined.

(** The artist of a parsed song is the text before the first " - ", so it
    never contains " - "; the title is cut before its first '[' and '(' and
    contains neither. *)
Theorem parse_song_titles_clean (posts : list post) (s : song) :
  In s (parse_song_titles posts) ->
  ~ (exists a b, artist s = a ++ sep_dash ++ b) /\ ~ In 91 (title s) /\ ~ In 40 (title s).
Proof.
  intros H. destruct (in_parse_song_titles posts s H) as [p [_ Hp]].
  destruct (parse_title_some _ _ Hp) as [i [Ei ->]]. simpl.
  destruct (cut_at_bracket_clean (skipn (i + 3) (data_title p))) as [C1 C2].
  split; [| split; intros Hc; apply in_strip in Hc; tauto].
  intros [a [b Eab]].
  destruct (strip_infix (firstn i (data_title p))) as [x [y Exy]].
  rewrite Eab in Exy.
  apply (find_sub_first_block sep_dash (data_title p) i); [discriminate | exact Ei |].
  exists (x ++ a), (b ++ y). rewrite Exy, <- !app_assoc. reflexivity.
Qed.

Lemma parse_song_titles_clean_witness :
  In (mk_song (u "Foo") (u "Bar") (u "Foo Bar")) (parse_song_titles feed3) /\
  ~ In 91 (u "Bar").
Proof.
  assert (H : In (mk_song (u "Foo") (u "Bar") (u "Foo Bar")) (parse_song_titles feed3))
    by (vm_compute; left; reflexivity).
  split; [exact H |].
  exact (proj1 (proj2 (parse_song_titles_clean feed3 _ H))).
Defined.

(** [s.split(sep, 1)] for a non-empty [sep]: with two parts, joining them
    with [sep] gives [s] back and the first part does not contain [sep]
    (the split is at the first occurrence); with one part, that part is
    [s] and [s] does not contain [sep]. *)
Theorem py_split1_rejoin (sep s : pystr) :
  sep <> [] ->
  match py_split1 sep s with
  | [a; b] => s = a ++ sep ++ b /\ ~ (exists x y, a = x ++ sep ++ y)
  | [a] => a = s /\ ~ (exists x y, s = x ++ sep ++ y)
  | _ => False
  end.
Proof.
  intros Hne. unfold py_split1. destruct (find_sub sep s) as [i |] eqn:E.
  - destruct (find_sub_spec sep s i E) as [H1 _].
    apply prefixb_app in H1. destruct H1 as [r Er].
    split; [| exact (find_sub_first_block sep s i Hne E)].
    replace (i + List.length sep)%nat with (List.length sep + i)%nat by lia.
    rewrite <- skipn_skipn, Er, skipn_app, skipn_all, Nat.sub_diag. simpl.
    rewrite <- Er. symmetry. apply firstn_skipn.
  - split; [reflexivity |]. intros [x [y Exy]].
    pose proof (occurrence_prefixb sep s x y Exy) as H.
    rewrite (find_sub_none sep s E) in H. discriminate.
Qed.

Lemma py_split1_rejoin_witness :
  u " - " <> [] /\
  u "Foo - Bar - Baz" = u "Foo" ++ u " - " ++ u "Bar - Baz" /\
  ~ (exists x y, u "Foo" = x ++ u " - " ++ y).
Proof.
  split; [discriminate |].
  exact (py_split1_rejoin (u " - ") (u "Foo - Bar - Baz") ltac:(discriminate)).
Defined.

(** [str(n)] for [n >= 0], as used in the playlist name and description:
    a non-empty string of decimal digits, without leading zero when
    [n > 0], that reads back as [n]. *)
Theorem py_str_Z_decimal (n : Z) :
  0 <= n ->
  dec_value (py_str_Z n) = n /\ Forall (fun c => 48 <= c <= 57) (py_str_Z n) /\
  py_str_Z n <> [] /\ (0 < n -> hd 0 (py_str_Z n) <> 48).
Proof.
  intros Hn. unfold py_str_Z.
  assert (Hb : n < 2 ^ Z.of_nat (S (Z.to_nat (Z.log2 n)))).
  { rewrite Nat2Z.inj_succ, Z2Nat.id by apply Z.log2_nonneg.
    destruct (Z.eq_dec n 0) as [-> | Hn0]; [reflexivity |].
    apply Z.log2_spec. lia. }
  destruct (digits_aux_spec (S (Z.to_nat (Z.log2 n))) n [] ltac:(lia) (conj Hn Hb))
    as [d [E [F [V [L N]]]]].
  rewrite E, app_nil_r. unfold dec_value. rewrite V. auto.
Qed.

Lemma py_str_Z_decimal_witness :
  0 <= 2026 /\ dec_value (py_str_Z 2026) = 2026 /\ py_str_Z 2026 = u "2026".
Proof.
  split; [lia |]. split; [exact (proj1 (py_str_Z_decimal 2026 ltac:(lia))) |].
  vm_compute. reflexivity.
Defined.

(** ** Searching and filling the playlist *)

Lemma searched_app (a b : list event) : searched (a ++ b) = searched a ++ searched b.
Proof. apply flat_map_app. Qed.

Lemma added_ids_app (a b : list event) : added_ids (a ++ b) = added_ids a ++ added_ids b.
Proof. apply flat_map_app. Qed.

Lemma created_app (a b : list event) : created (a ++ b) = created a ++ created b.
Proof. apply filter_app. Qed.

Lemma search_songs_trace (w : world) (songs : list song) (ids : list pystr)
    (nf : list song) (tr : list event) :
  search_songs w songs ids nf tr =
    (Ok (ids ++ hit_ids w songs, nf ++ missed w songs),
     tr ++ flat_map (search_events w) songs).
Proof.
  revert ids nf tr. induction songs as [| s ss IH]; intros ids nf tr; simpl.
  - now rewrite !app_nil_r.
  - unfold bind, print, emit. unfold search_events.
    destruct (w_search w (query s)) as [| t ts]; simpl; rewrite IH;
      now rewrite <- !app_assoc.
Qed.

Lemma not_found_trace (nf : list song) (tr : list event) :
  for_each nf (fun s => print (MsgNotFoundItem (artist s) (title s))) tr =
    (Ok tt, tr ++ map (fun s => EvPrint (MsgNotFoundItem (artist s) (title s))) nf).
Proof.
  rewrite (for_each_trace nf _ (fun s => [EvPrint (MsgNotFoundItem (artist s) (title s))]))
    by (intros; reflexivity).
  f_equal.
Qed.

(** The events of the report of songs not found (lines 108-111). *)
Definition not_found_events (nf : list song) : list event :=
  match nf with
  | [] => []
  | _ => EvPrint (MsgCouldNotFind (List.length nf)) ::
         map (fun s => EvPrint (MsgNotFoundItem (artist s) (title s))) nf
  end.

Lemma create_spotify_playlist_trace (w : world) (songs : list song) (tr : list event) :
  let '(y, m) := w_today w in
  let stamp := py_str_Z m ++ u "/" ++ py_str_Z y in
  create_spotify_playlist w songs tr =
    (Ok (w_playlist_id w),
     tr ++ [EvPrint (MsgCreatingFor (w_user_id w));
            EvCreatePlaylist (w_user_id w) (u "r/listentothis " ++ stamp) true
              (u "Top tracks from r/listentothis for " ++ stamp ++ u ".")] ++
     flat_map (search_events w) songs ++
     flat_map (fun b => [EvAddItems (w_playlist_id w) b; EvPrint (MsgAdded (List.length b))])
              (add_batches (hit_ids w songs)) ++
     not_found_events (missed w songs)).
Proof.
  unfold create_spotify_playlist. destruct (w_today w) as [y m].
  unfold bind at 1, print at 1, emit at 1. cbn [app].
  unfold bind at 1, emit at 1.
  unfold bind at 1. rewrite search_songs_trace. cbn [app].
  unfold bind at 1. rewrite insert_batches_trace.
  destruct (missed w songs) as [| s ss] eqn:Em.
  - unfold not_found_events, ret. rewrite app_nil_r, <- !app_assoc. reflexivity.
  - unfold bind, print, emit. rewrite not_found_trace. unfold ret, not_found_events.
    rewrite <- !app_assoc. reflexivity.
Qed.

Lemma searched_search_events (w : world) (songs : list song) :
  searched (flat_map (search_events w) songs) = map query songs.
Proof.
  induction songs as [| s ss IH]; [reflexivity |].
  cbn [flat_map map]. rewrite searched_app, IH. unfold search_events.
  destruct (w_search w (query s)); reflexivity.
Qed.

Lemma added_ids_search_events (w : world) (songs : list song) :
  added_ids (flat_map (search_events w) songs) = [].
Proof.
  induction songs as [| s ss IH]; [reflexivity |].
  cbn [flat_map]. rewrite added_ids_app, IH. unfold search_events.
  destruct (w_search w (query s)); reflexivity.
Qed.

Lemma created_search_events (w : world) (songs : list song) :
  created (flat_map (search_events w) songs) = [].
Proof.
  induction songs as [| s ss IH]; [reflexivity |].
  cbn [flat_map]. rewrite created_app, IH. unfold search_events.
  destruct (w_search w (query s)); reflexivity.
Qed.

Lemma batch_events_views (pid : pystr) (bs : list (list pystr)) :
  let evs := flat_map (fun b => [EvAddItems pid b; EvPrint (MsgAdded (List.length b))]) bs in
  created evs = [] /\ searched evs = [] /\ added_ids evs = List.concat bs /\
  (forall p b, In (EvAddItems p b) evs -> p = pid /\ In b bs).
Proof.
  induction bs as [| b bs [IH1 [IH2 [IH3 IH4]]]]; simpl; [repeat split; tauto |].
  rewrite IH1, IH2, IH3. split; [reflexivity | split; [reflexivity | split; [reflexivity |]]].
  intros q c [E | [E | Hin]]; try discriminate.
  - injection E as -> ->. auto.
  - destruct (IH4 q c Hin). auto.
Qed.

Lemma not_found_events_quiet (nf : list song) :
  searched (not_found_events nf) = [] /\ added_ids (not_found_events nf) = [] /\
  created (not_found_events nf) = [].
Proof.
  destruct nf as [| s ss]; [auto |]. unfold not_found_events.
  generalize (s :: ss). intros l. induction l as [| x l IH]; [auto |].
  simpl in *. tauto.
Qed.

(** The search loop of [create_spotify_playlist] sends one search per song,
    with the song's query, in order; it keeps the id of the first hit of
    each song that has one and collects the others as not found, both in
    order, so found and not found add up to the number of songs. *)
Theorem search_songs_partition (w : world) (songs : list song) (tr : list event) :
  exists suf,
    search_songs w songs [] [] tr = (Ok (hit_ids w songs, missed w songs), tr ++ suf) /\
    searched suf = map query songs /\
    (List.length (hit_ids w songs) + List.length (missed w songs) = List.length songs)%nat.
Proof.
  exists (flat_map (search_events w) songs). rewrite search_songs_trace.
  split; [reflexivity | split; [apply searched_search_events |]].
  induction songs as [| s ss IH]; [reflexivity |]. simpl.
  destruct (w_search w (query s)); simpl; lia.
Qed.

(** [create_spotify_playlist] creates exactly one playlist, public, for the
    current user, named "r/listentothis M/YYYY" with the current month and
    year and described "Top tracks from r/listentothis for M/YYYY."; it
    searches each song's query once, in order, and returns the id of the
    created playlist. *)
Theorem create_spotify_playlist_creates_one (w : world) (songs : list song) (tr : list event) :
  let '(y, m) := w_today w in
  let stamp := py_str_Z m ++ u "/" ++ py_str_Z y in
  exists suf,
    create_spotify_playlist w songs tr = (Ok (w_playlist_id w), tr ++ suf) /\
    created suf = [EvCreatePlaylist (w_user_id w) (u "r/listentothis " ++ stamp) true
                     (u "Top tracks from r/listentothis for " ++ stamp ++ u ".")] /\
    searched suf = map query songs.
Proof.
  pose proof (create_spotify_playlist_trace w songs tr) as H.
  destruct (w_today w) as [y m]. cbv zeta in *.
  eexists. split; [exact H |].
  destruct (not_found_events_quiet (missed w songs)) as [Q1 [Q2 Q3]].
  destruct (batch_events_views (w_playlist_id w) (add_batches (hit_ids w songs)))
    as [B1 [B2 _]].
  rewrite !created_app, !searched_app, created_search_events, searched_search_events,
    Q1, Q3, B1, B2.
  split; simpl; now rewrite ?app_nil_r.
Qed.

Lemma in_search_events (w : world) (songs : list song) (e : event) :
  In e (flat_map (search_events w) songs) ->
  match e with
  | EvAddItems _ _ | EvCreatePlaylist _ _ _ _ | EvUploadCover _ _ => False
  | EvPrint (MsgCouldNotFind _) => False
  | _ => True
  end.
Proof.
  intros H. apply in_flat_map in H. destruct H as [s [_ H]]. unfold search_events in H.
  destruct (w_search w (query s)); simpl in H;
    repeat (destruct H as [<- | H]; [exact I |]); contradiction.
Qed.

Lemma in_not_found_events (nf : list song) (e : event) :
  In e (not_found_events nf) ->
  match e with
  | EvAddItems _ _ | EvCreatePlaylist _ _ _ _ | EvUploadCover _ _ => False
  | EvPrint (MsgCouldNotFind n) => nf <> [] /\ n = List.length nf
  | _ => True
  end.
Proof.
  destruct nf as [| s ss]; simpl; [contradiction |].
  intros [<- | H]; [split; [discriminate | reflexivity] |].
  destruct H as [<- | H]; [exact I |].
  apply in_map_iff in H. destruct H as [x [<- _]]. exact I.
Qed.

Lemma add_batches_sizes (l : list pystr) (b : list pystr) :
  In b (add_batches l) -> (0 < List.length b <= 100)%nat.
Proof.
  unfold add_batches, py_range. intros Hb. apply in_map_iff in Hb.
  destruct Hb as [j [<- Hj]]. apply range_in in Hj. unfold py_slice.
  rewrite length_firstn, length_skipn. lia.
Qed.

Lemma add_batches_concat (l : list pystr) : List.concat (add_batches l) = l.
Proof. unfold add_batches, py_range. rewrite range_concat by lia. reflexivity. Qed.

(** [create_spotify_playlist] adds to the created playlist exactly the ids
    of the first search hits, in song order, in calls of 1 to 100 ids, and
    adds to no other playlist; it reports "Could not find N tracks" exactly
    when some song had no hit, with N the number of such songs. *)
Theorem create_spotify_playlist_adds_hits (w : world) (songs : list song) (tr : list event) :
  exists suf,
    create_spotify_playlist w songs tr = (Ok (w_playlist_id w), tr ++ suf) /\
    added_ids suf = hit_ids w songs /\
    (forall p b, In (EvAddItems p b) suf ->
       p = w_playlist_id w /\ (0 < List.length b <= 100)%nat) /\
    (forall n, In (EvPrint (MsgCouldNotFind n)) suf <->
       missed w songs <> [] /\ n = List.length (missed w songs)).
Proof.
  pose proof (create_spotify_playlist_trace w songs tr) as H.
  destruct (w_today w) as [y m]. cbv zeta in H.
  eexists. split; [exact H |].
  destruct (not_found_events_quiet (missed w songs)) as [_ [Q2 _]].
  destruct (batch_events_views (w_playlist_id w) (add_batches (hit_ids w songs)))
    as [_ [_ [B3 B4]]].
  split; [| split].
  - rewrite !added_ids_app, added_ids_search_events, Q2, B3, add_batches_concat.
    simpl. now rewrite app_nil_r.
  - intros p b Hin. rewrite !in_app_iff in Hin.
    destruct Hin as [[E | [E | []]] | [Hin | [Hin | Hin]]]; try discriminate.
    + exact (match in_search_events _ _ _ Hin with end).
    + destruct (B4 p b Hin) as [-> Hb]. split; [reflexivity | exact (add_batches_sizes _ _ Hb)].
    + exact (match in_not_found_events _ _ Hin with end).
  - intros n. rewrite !in_app_iff. split.
    + intros [[E | [E | []]] | [Hin | [Hin | Hin]]]; try discriminate.
      * exact (match in_search_events _ _ _ Hin with end).
      * apply in_flat_map in Hin. destruct Hin as [b [_ [E | [E | []]]]]; discriminate.
      * exact (in_not_found_events _ _ Hin).
    + intros [Hne ->]. right. right. right.
      destruct (missed w songs) as [| s ss]; [congruence |]. left. reflexivity.
Qed.

(** ** What a run writes to Spotify *)

Section Emits.

Variable P : event -> Prop.

Lemma emits_ret {A} (a : A) : emits P (ret a).
Proof. intros tr. exists (Ok a), []. rewrite app_nil_r. auto. Qed.

Lemma emits_emit (e : event) : P e -> emits P (emit e).
Proof. intros He tr. exists (Ok tt), [e]. auto. Qed.

Lemma emits_raise {A} (e : exn) : emits P (@raise A e).
Proof. intros tr. exists (Err e), []. rewrite app_nil_r. auto. Qed.

Lemma emits_bind {A B} (m : M A) (k : A -> M B) :
  emits P m -> (forall a, emits P (k a)) -> emits P (bind m k).
Proof.
  intros Hm Hk tr. unfold bind. destruct (Hm tr) as [r [s1 [E1 F1]]]. rewrite E1.
  destruct r as [a | e]; [| exists (Err e), s1; auto].
  destruct (Hk a (tr ++ s1)) as [r2 [s2 [E2 F2]]]. rewrite E2.
  exists r2, (s1 ++ s2). rewrite app_assoc. split; [reflexivity |].
  apply Forall_app. auto.
Qed.

Lemma emits_for_each {B} (xs : list B) (body : B -> M unit) :
  (forall x, emits P (body x)) -> emits P (for_each xs body).
Proof.
  intros Hb. induction xs as [| x xs IH]; simpl; [apply emits_ret |].
  apply emits_bind; auto.
Qed.

Lemma emits_try_except {A} (m : M A) (h : exn -> M A) :
  emits P m -> (forall e, emits P (h e)) -> emits P (try_except m h).
Proof.
  intros Hm Hh tr. unfold try_except. destruct (Hm tr) as [r [s1 [E1 F1]]]. rewrite E1.
  destruct r as [a | e]; [exists (Ok a), s1; auto |].
  destruct (Hh e (tr ++ s1)) as [r2 [s2 [E2 F2]]]. rewrite E2.
  exists r2, (s1 ++ s2). rewrite app_assoc. split; [reflexivity |].
  apply Forall_app. auto.
Qed.

Lemma emits_try_catch {A} (c : exn -> bool) (m : M A) (h : M A) :
  emits P m -> emits P h -> emits P (try_catch c m h).
Proof.
  intros Hm Hh tr. unfold try_catch. destruct (Hm tr) as [r [s1 [E1 F1]]]. rewrite E1.
  destruct r as [a | e]; [exists (Ok a), s1; auto |].
  destruct (c e); [| exists (Err e), s1; auto].
  destruct (Hh (tr ++ s1)) as [r2 [s2 [E2 F2]]]. rewrite E2.
  exists r2, (s1 ++ s2). rewrite app_assoc. split; [reflexivity |].
  apply Forall_app. auto.
Qed.

End Emits.

Lemma emits_weaken (P Q : event -> Prop) {A} (m : M A) :
  (forall e, P e -> Q e) -> emits P m -> emits Q m.
Proof.
  intros HPQ Hm tr. destruct (Hm tr) as [r [suf [E F]]]. exists r, suf.
  split; [exact E |]. eapply Forall_impl; eauto.
Qed.

Lemma emits_print (P : event -> Prop) (m : msg) : P (EvPrint m) -> emits P (print m).
Proof. apply emits_emit. Qed.

Ltac emits_auto :=
  repeat first
    [ progress (intros)
    | apply emits_try_catch
    | apply emits_try_except
    | apply emits_bind
    | apply emits_for_each
    | apply emits_ret
    | apply emits_raise
    | apply emits_print; reflexivity
    | apply emits_print; exact I
    | match goal with
      | |- emits _ (match ?x with _ => _ end) => destruct x
      | |- emits _ (if ?b then _ else _) => destruct b
      | |- emits _ (let '(_, _) := ?p in _) => destruct p
      end ].

Section RunEvents.

Variable w : world.

Lemma get_reddit_posts_prints (sub : pystr) (limit : Z) :
  emits printing (get_reddit_posts w sub limit).
Proof. unfold get_reddit_posts. emits_auto. Qed.

Lemma get_and_modify_cover_image_prints : emits printing (get_and_modify_cover_image w).
Proof.
  unfold get_and_modify_cover_image, process_cover, resize_if_needed, draw_month, choose_font,
    truetype, text_dims, save_cover, save_jpeg, pil_resize, pil_load.
  apply emits_bind; [apply get_reddit_posts_prints |]. emits_auto.
Qed.

Lemma writes_to_print (pid : pystr) (e : event) : printing e -> writes_to pid e.
Proof. destruct e; simpl; unfold printing; simpl; try discriminate; auto. Qed.

Lemma cover_and_finish_writes (pl : pystr) : emits (writes_to pl) (cover_and_finish w pl).
Proof.
  unfold cover_and_finish. apply emits_bind.
  - eapply emits_weaken; [apply writes_to_print | apply get_and_modify_cover_image_prints].
  - intros [b |]; apply emits_bind; try (intros; apply emits_print; exact I).
    + unfold set_playlist_cover. emits_auto. apply emits_emit. reflexivity.
    + apply emits_ret.
Qed.

End RunEvents.

(** When the r/listentothis request answers with an error status, or none
    of its titles parses, [create_monthly_playlist] ends normally after
    printing "No posts found ..." or "No valid song titles found ...": it
    only prints, and calls neither Spotify nor the cover image host. *)
Theorem run_without_songs_only_prints (w : world) (tr : list event) :
  match w_reddit w (u "listentothis") 20 with
  | Response c posts => (c =? 200) = false \/ parse_song_titles posts = []
  | ConnectionError => False
  end ->
  exists pre,
    create_monthly_playlist w tr = (Ok tt, tr ++ pre ++ [EvPrint MsgNoPosts]) /\
    Forall printing pre \/
    create_monthly_playlist w tr = (Ok tt, tr ++ pre ++ [EvPrint MsgNoSongs]) /\
    Forall printing pre.
Proof.
  intros H. unfold create_monthly_playlist, get_reddit_posts, bind, print, emit, ret.
  destruct (w_reddit w (u "listentothis") 20) as [c posts |]; [| contradiction].
  destruct (c =? 200).
  - destruct H as [H | H]; [discriminate |].
    destruct posts as [| p ps].
    + exists [EvPrint MsgStarting; EvPrint (MsgFetching (u "listentothis") 20)].
      left. cbn. split; [rewrite <- !app_assoc; reflexivity |].
      repeat constructor.
    + rewrite H.
      exists [EvPrint MsgStarting; EvPrint (MsgFetching (u "listentothis") 20);
              EvPrint (MsgSongs [])].
      right. cbn. split; [rewrite <- !app_assoc; reflexivity |].
      repeat constructor.
  - exists [EvPrint MsgStarting; EvPrint (MsgFetching (u "listentothis") 20);
            EvPrint (MsgRedditError c)].
    left. cbn. split; [rewrite <- !app_assoc; reflexivity |].
    repeat constructor.
Qed.

Lemma run_without_songs_only_prints_witness :
  (503 =? 200) = false /\
  exists pre,
    create_monthly_playlist (reddit_down (sample_world None small_jpeg)) [] =
      (Ok tt, [] ++ pre ++ [EvPrint MsgNoPosts]) /\ Forall printing pre \/
    create_monthly_playlist (reddit_down (sample_world None small_jpeg)) [] =
      (Ok tt, [] ++ pre ++ [EvPrint MsgNoSongs]) /\ Forall printing pre.
Proof.
  split; [reflexivity |].
  apply (run_without_songs_only_prints (reddit_down (sample_world None small_jpeg)) []).
  simpl. left. reflexivity.
Defined.

(** Every run of [create_monthly_playlist] either only prints, or creates
    exactly one playlist (public, named after the current month and year)
    after a stretch of prints, and every later [playlist_add_items] and
    [playlist_upload_cover_image] call targets that playlist; no other
    playlist is created or written to, whether the run ends normally or
    with an exception. *)
Theorem run_writes_only_to_created_playlist (w : world) (tr : list event) :
  let '(y, m) := w_today w in
  let stamp := py_str_Z m ++ u "/" ++ py_str_Z y in
  exists r suf, create_monthly_playlist w tr = (r, tr ++ suf) /\
    (Forall printing suf \/
     exists pre post,
       suf = pre ++ [EvCreatePlaylist (w_user_id w) (u "r/listentothis " ++ stamp) true
                       (u "Top tracks from r/listentothis for " ++ stamp ++ u ".")] ++ post /\
       Forall printing pre /\ Forall (writes_to (w_playlist_id w)) post).
Proof.
  pose proof (fun songs tr => create_spotify_playlist_trace w songs tr) as HC.
  destruct (w_today w) as [y m]. cbv zeta in *.
  unfold create_monthly_playlist, bind at 1, print at 1, emit at 1.
  unfold bind at 1. destruct (get_reddit_posts_prints w (u "listentothis") 20 (tr ++ [EvPrint MsgStarting]))
    as [r1 [s1 [E1 F1]]]. rewrite E1.
  destruct r1 as [posts | e].
  2:{ exists (Err e), (EvPrint MsgStarting :: s1). rewrite <- app_assoc.
      split; [reflexivity |]. left. constructor; [reflexivity | exact F1]. }
  destruct posts as [| p ps].
  { exists (Ok tt), (EvPrint MsgStarting :: s1 ++ [EvPrint MsgNoPosts]).
    unfold print, emit. rewrite <- !app_assoc. split; [reflexivity |].
    left. constructor; [reflexivity |]. apply Forall_app. split; [exact F1 | repeat constructor]. }
  unfold bind at 1, print at 1, emit at 1.
  destruct (parse_song_titles (p :: ps)) as [| s ss] eqn:Es.
  { exists (Ok tt), (EvPrint MsgStarting :: s1 ++ [EvPrint (MsgSongs []); EvPrint MsgNoSongs]).
    unfold print, emit. rewrite <- !app_assoc. split; [reflexivity |].
    left. constructor; [reflexivity |]. apply Forall_app. split; [exact F1 | repeat constructor]. }
  unfold bind at 1, print at 1, emit at 1.
  unfold bind at 1. rewrite HC.
  match goal with |- context [cover_and_finish w (w_playlist_id w) ?X] =>
    destruct (cover_and_finish_writes w (w_playlist_id w) X) as [r2 [s2 [E2 F2]]] end.
  rewrite E2. exists r2.
  eexists. split; [rewrite <- !app_assoc; reflexivity |]. right.
  destruct (batch_events_views (w_playlist_id w) (add_batches (hit_ids w (s :: ss))))
    as [_ [_ [_ B4]]].
  eexists (EvPrint MsgStarting :: s1 ++ [EvPrint (MsgSongs (s :: ss));
           EvPrint (MsgFoundSongs (List.length (s :: ss)));
           EvPrint (MsgCreatingFor (w_user_id w))]),
    (flat_map (search_events w) (s :: ss) ++
     flat_map (fun b => [EvAddItems (w_playlist_id w) b; EvPrint (MsgAdded (List.length b))])
              (add_batches (hit_ids w (s :: ss))) ++
     not_found_events (missed w (s :: ss)) ++ s2).
  split; [cbn [app]; rewrite <- !app_assoc; reflexivity |].
  split.
  - constructor; [reflexivity |]. apply Forall_app. split; [exact F1 | repeat constructor].
  - rewrite !Forall_app. split; [| split; [| split]]; try exact F2.
    + apply Forall_forall. intros e He. pose proof (in_search_events _ _ _ He) as H.
      destruct e; simpl in *; tauto.
    + apply Forall_forall. intros e He. destruct e; simpl; auto.
      * apply in_flat_map in He. destruct He as [b [_ [E | [E | []]]]]; discriminate.
      * destruct (B4 _ _ He). auto.
      * apply in_flat_map in He. destruct He as [b [_ [E | [E | []]]]]; discriminate.
    + apply Forall_forall. intros e He. pose proof (in_not_found_events _ _ He) as H.
      destruct e; simpl in *; tauto.
Qed.

(** ** Sizes of the encoded cover *)

Lemma int_three_quarters_bounds (n : Z) :
  0 <= n <= 2 ^ 52 ->
  0 <= int_three_quarters n <= n /\ 3 * n / 4 - 1 <= int_three_quarters n.
Proof.
  intros Hn. unfold int_three_quarters, PyFloat.mul, PyFloat.of_int.
  rewrite to_int_floor.
  set (N := inject_Z n).
  assert (HN : (0 <= N)%Q) by (unfold N; change 0%Q with (inject_Z 0); rewrite <- Zle_Qle; lia).
  assert (HNb : (N <= 4503599627370496)%Q).
  { unfold N. change 4503599627370496%Q with (inject_Z (2 ^ 52)). rewrite <- Zle_Qle. lia. }
  destruct (round_bounds N HN) as [Nl Nu].
  set (fn := PyFloat.round N) in *.
  assert (Hfn : (0 <= fn)%Q) by (unfold eps in *; nra).
  assert (Hp0 : (0 <= fn * (3 # 4))%Q) by (apply Qmult_le_0_compat; [exact Hfn | discriminate]).
  destruct (round_bounds (fn * (3 # 4)) Hp0) as [Vl Vu].
  set (v := PyFloat.round (fn * (3 # 4))) in *.
  unfold eps in *.
  assert (Hvu : (v <= N)%Q) by nra.
  assert (Hvl : (N * (3 # 4) - 1 <= v)%Q) by lra.
  assert (Hv0 : (0 <= v)%Q) by nra.
  pose proof (Qfloor_le v) as F1. pose proof (Qlt_floor v) as F2.
  set (f := Qfloor v) in *.
  rewrite inject_Z_plus in F2. change (inject_Z 1) with 1%Q in F2.
  assert (Hdiv : (inject_Z (3 * n / 4) <= N * (3 # 4))%Q).
  { pose proof (Z.mul_div_le (3 * n) 4 ltac:(lia)) as D.
    assert (D' : (inject_Z (3 * n / 4) * 4 <= N * 3)%Q).
    { unfold N. change 4%Q with (inject_Z 4). change 3%Q with (inject_Z 3).
      rewrite <- !inject_Z_mult, <- Zle_Qle. lia. }
    lra. }
  split; [split |].
  - assert (inject_Z (-1) < inject_Z f)%Q by (change (inject_Z (-1)) with (-1)%Q; lra).
    rewrite <- Zlt_Qlt in H. lia.
  - assert (inject_Z f < inject_Z (n + 1))%Q
      by (rewrite inject_Z_plus; fold N; change (inject_Z 1) with 1%Q; lra).
    rewrite <- Zlt_Qlt in H. lia.
  - assert (inject_Z (3 * n / 4) < inject_Z (f + 2))%Q.
    { rewrite inject_Z_plus. change (inject_Z 2) with 2%Q. lra. }
    rewrite <- Zlt_Qlt in H. lia.
Qed.

Lemma resized_size_bounds (im : image) :
  0 <= width im -> 0 <= height im ->
  0 <= fst (resized_size im) <= Z.min (width im) 1500 /\
  0 <= snd (resized_size im) <= Z.min (height im) 1500.
Proof.
  intros Hw Hh. unfold resized_size, resize_dims, max_size.
  destruct (Z.ltb_spec 1500 (Z.max (width im) (height im))) as [Hm | Hm]; simpl; [| lia].
  destruct (int_scale_bounds (width im) (Z.max (width im) (height im)) ltac:(lia) Hm)
    as [A1 [A2 _]].
  destruct (int_scale_bounds (height im) (Z.max (width im) (height im)) ltac:(lia) Hm)
    as [B1 [B2 _]].
  lia.
Qed.

(** When the encoding step succeeds, the image it encoded is the one it was
    given or, when quality 85 and 70 both gave more than 200 KiB, that image
    resized to [int(side * 0.75)]: each side then lies between
    [3 * side // 4 - 1] and [side] (for sides up to 2^52) and is at least 1,
    since a resize to a side of 0 raises. *)
Theorem save_cover_shrink_bounds (w : world) (im im' : image) (buf : bytes) (tr : list event) :
  0 <= width im <= 2 ^ 52 -> 0 <= height im <= 2 ^ 52 ->
  fst (save_cover w im tr) = Ok (im', buf) ->
  img_src im' = img_src im /\
  ((width im', height im') = (width im, height im) \/
   (3 * width im / 4 - 1 <= width im' <= width im /\
    3 * height im / 4 - 1 <= height im' <= height im /\ 1 <= width im' /\ 1 <= height im')).
Proof.
  intros Hw Hh H. apply save_cover_ok_iff in H.
  destruct (int_three_quarters_bounds (width im) Hw) as [[W1 W2] W3].
  destruct (int_three_quarters_bounds (height im) Hh) as [[H1 H2] H3].
  destruct H as [b85 [_ [[_ [-> _]] | [_ [b70 [_ [[_ [-> _]] | [_ [R _]]]]]]]]];
    [auto | auto |].
  destruct (pil_resize_ok w im im' _ _ _ [] R) as [[_ [_ ->]] | [N1 [N2 ->]]]; [auto |].
  cbn [img_resize img_src width height]. split; [reflexivity |]. right. lia.
Qed.

Lemma save_cover_shrink_bounds_witness :
  let im' := img_resize cover_src 750 375 LANCZOS in
  (0 <= 1000 <= 2 ^ 52 /\ 0 <= 500 <= 2 ^ 52 /\
   fst (save_cover (sample_world (Some cover_src) large_jpeg) cover_src []) =
     Ok (im', large_jpeg im' 70)) /\
  749 <= width im' <= 1000 /\ 374 <= height im' <= 500.
Proof.
  intros im'.
  assert (O : forall i q, over_budget (large_jpeg i q) = true)
    by (intros i q; unfold large_jpeg; vm_compute; reflexivity).
  assert (E : fst (save_cover (sample_world (Some cover_src) large_jpeg) cover_src []) =
                Ok (im', large_jpeg im' 70)).
  { apply save_cover_ok_iff. exists (large_jpeg cover_src 85).
    split; [reflexivity |]. right. split; [apply O |].
    exists (large_jpeg cover_src 70). split; [reflexivity |]. right.
    split; [apply O | split; [vm_compute; reflexivity | reflexivity]]. }
  split; [split; [lia | split; [lia | exact E]] |].
  destruct (save_cover_shrink_bounds (sample_world (Some cover_src) large_jpeg) cover_src im'
              (large_jpeg im' 70) [] ltac:(simpl; lia) ltac:(simpl; lia) E) as [_ [H | H]].
  - vm_compute in H. discriminate H.
  - unfold cover_src in H. cbn [width height] in H.
    change (3 * 1000 / 4 - 1) with 749 in H. change (3 * 500 / 4 - 1) with 374 in H. lia.
Defined.

(** When the cover pipeline produces a buffer, the image it encoded is
    never larger than the decoded image on either side and never over
    1500 px on either side; it keeps the decoded source. *)
Theorem process_cover_within_bounds (w : world) (im im' : image) (buf : bytes) (tr : list event) :
  0 <= width im -> 0 <= height im ->
  fst (process_cover w im tr) = Ok (im', buf) ->
  0 <= width im' <= Z.min (width im) 1500 /\
  0 <= height im' <= Z.min (height im) 1500 /\
  img_src im' = img_src im.
Proof.
  intros Hw Hh H.
  destruct (resized_size_bounds im Hw Hh) as [R1 R2].
  destruct (process_cover_ok w im im' buf tr H) as [im1 [im2 [E1 [E2 E3]]]].
  destruct (resize_if_needed_ok w im im1 [] E1) as [S1 Src1].
  destruct (draw_month_size w im1 im2 [] E2) as [W2 [H2 Src2]].
  assert (S1w : width im1 = fst (resized_size im)) by (rewrite <- S1; reflexivity).
  assert (S1h : height im1 = snd (resized_size im)) by (rewrite <- S1; reflexivity).
  assert (P52 : 2 ^ 52 = 4503599627370496) by reflexivity.
  assert (B1 : 0 <= width im2 <= 2 ^ 52) by lia.
  assert (B2 : 0 <= height im2 <= 2 ^ 52) by lia.
  destruct (save_cover_shrink_bounds w im2 im' buf [] B1 B2 E3) as [Src3 [Sz | [X1 [X2 [X3 X4]]]]].
  - injection Sz as Ew Eh. rewrite Ew, Eh. split; [lia | split; [lia | congruence]].
  - split; [lia | split; [lia | congruence]].
Qed.

Lemma process_cover_within_bounds_witness :
  exists im' buf,
    (0 <= 1000 /\ 0 <= 500 /\
     fst (process_cover (sample_world (Some cover_src) small_jpeg) cover_src []) = Ok (im', buf)) /\
    0 <= width im' <= 1000 /\ 0 <= height im' <= 500.
Proof.
  destruct (fst (process_cover (sample_world (Some cover_src) small_jpeg) cover_src []))
    as [[im' buf] | e] eqn:E; [| vm_compute in E; discriminate E].
  exists im', buf. split; [split; [lia | split; [lia | reflexivity]] |].
  destruct (process_cover_within_bounds (sample_world (Some cover_src) small_jpeg) cover_src im' buf []
              ltac:(simpl; lia) ltac:(simpl; lia) E) as [W [H _]].
  simpl in W, H. lia.
Defined.

(** ** Cover upload and the entry point *)

Lemma uploads_printing (l : list event) : Forall printing l -> uploads l = [].
Proof.
  induction l as [| e l IH]; intros H; [reflexivity |].
  inversion H as [| ? ? He Hl]; subst. unfold printing in He.
  destruct e; try discriminate. simpl. apply IH, Hl.
Qed.

(** The cover step that ends a run uploads a cover at most once: exactly
    when [get_and_modify_cover_image] returned an image buffer, with that
    buffer and to the given playlist, and never otherwise. *)
Theorem cover_uploaded_once (w : world) (pl : pystr) (tr : list event) :
  exists r suf, cover_and_finish w pl tr = (r, tr ++ suf) /\
    uploads suf = match fst (get_and_modify_cover_image w tr) with
                  | Ok (Some b) => [EvUploadCover pl b]
                  | _ => []
                  end.
Proof.
  unfold cover_and_finish, bind at 1.
  destruct (get_and_modify_cover_image_prints w tr) as [r1 [s1 [E1 F1]]].
  rewrite E1. simpl fst.
  destruct r1 as [[b |] | e].
  - unfold bind at 1.
    unfold bind at 1, set_playlist_cover, try_except, emit at 1.
    destruct (w_upload_ok w b); cbn.
    + exists (Ok tt), (s1 ++ [EvUploadCover pl b; EvPrint MsgUploadOk; EvPrint MsgComplete]).
      split; [cbv [print emit bind ret raise]; rewrite <- !app_assoc; reflexivity |].
      unfold uploads. rewrite !filter_app. fold (uploads s1). rewrite uploads_printing by exact F1. reflexivity.
    + exists (Ok tt), (s1 ++ [EvUploadCover pl b; EvPrint (MsgUploadError ExnSpotify); EvPrint MsgComplete]).
      split; [cbv [print emit bind ret raise]; rewrite <- !app_assoc; reflexivity |].
      unfold uploads. rewrite !filter_app. fold (uploads s1). rewrite uploads_printing by exact F1. reflexivity.
  - cbn. exists (Ok tt), (s1 ++ [EvPrint MsgComplete]).
    split; [cbv [print emit bind ret raise]; rewrite <- !app_assoc; reflexivity |].
    unfold uploads. rewrite !filter_app. fold (uploads s1). rewrite uploads_printing by exact F1. reflexivity.
  - exists (Err e), s1. split; [reflexivity |]. exact (uploads_printing s1 F1).
Qed.

(** The [__main__] block runs [create_monthly_playlist] only when
    SPOTIPY_CLIENT_ID, SPOTIPY_CLIENT_SECRET and SPOTIPY_REDIRECT_URI are
    all set and non-empty; when one of them is unset or empty it prints
    its error and does nothing else (SPOTIPY_REFRESH_TOKEN is not checked). *)
Theorem main_requires_credentials (w : world) (env : environ) (tr : list event) :
  let keys := [u "SPOTIPY_CLIENT_ID"; u "SPOTIPY_CLIENT_SECRET"; u "SPOTIPY_REDIRECT_URI"] in
  ((exists k, In k keys /\ (env k = None \/ env k = Some [])) ->
     main w env tr = (Ok tt, tr ++ [EvPrint MsgEnvError])) /\
  ((forall k, In k keys -> exists c r, env k = Some (c :: r)) ->
     main w env tr = create_monthly_playlist w tr).
Proof.
  intros keys. unfold main. split.
  - intros [k [Hk Hv]].
    replace (forallb py_truthy [env (u "SPOTIPY_CLIENT_ID"); env (u "SPOTIPY_CLIENT_SECRET");
                                env (u "SPOTIPY_REDIRECT_URI")]) with false; [reflexivity |].
    symmetry. apply not_true_iff_false. intros Hall.
    apply forallb_forall with (x := env k) in Hall.
    + destruct Hv as [E | E]; rewrite E in Hall; discriminate.
    + simpl in Hk. simpl. destruct Hk as [<- | [<- | [<- | []]]]; auto.
  - intros Hall.
    replace (forallb py_truthy [env (u "SPOTIPY_CLIENT_ID"); env (u "SPOTIPY_CLIENT_SECRET");
                                env (u "SPOTIPY_REDIRECT_URI")]) with true; [reflexivity |].
    symmetry. apply forallb_forall. intros x Hx. simpl in Hx.
    destruct Hx as [<- | [<- | [<- | []]]];
      match goal with |- py_truthy (env ?k) = true =>
        destruct (Hall k ltac:(simpl; auto)) as [c [r ->]]; reflexivity end.
Qed.
